(** * MapSCII: tile source cache and label buffer

    A shallow embedding of [src/TileSource.ts] and [src/LabelBuffer.ts],
    and of the integer and string helpers of [utils] (src/unnamed/part_000).

    - JavaScript objects used as dictionaries are [gmap string _];
      arrays are lists; [null]/[undefined] fields are [option]s.
    - A [number] that only ever holds an integer (zoom, x, y, the cache
      size) is a [Z]; the one place where the source subtracts
      [undefined] from a number is modelled with an explicit [NaN].
      Label coordinates and margins are exact rationals [Q] (the margin
      is halved, so integers do not suffice); rounding of IEEE doubles,
      [NaN] and the infinities are outside the model there.
    - The spatial index of the label buffer ([rbush]) is modelled by
      its contract, which is exact for rectangles stored with margins
      that are not negative; see [LabelBuffer.collides].
    - Promises are modelled by the event that settles them: a call
      returns what it is waiting for, and a second function is the
      continuation the event loop runs when the reply arrives.
    - Everything outside the class (file system, network, the MBTiles
      driver, the tile decoder, module-level variables) is a field of
      [World]; every interaction with it is appended to a log. *)

From Stdlib Require Import ZArith QArith Qround Lia Lqa Bool.
From stdpp Require Import gmap strings list pretty.

#[local] Open Scope Z_scope.

(** Linear arithmetic over [Q] with the halvings and quarterings of the
    source written as products. *)
Ltac qlra :=
  unfold Qdiv in *;
  change (/ 2)%Q with (1 # 2)%Q in *; change (/ 4)%Q with (1 # 4)%Q in *;
  lra.

(** ** ECMAScript helpers *)

Module Js.

(** [Error] is a plain [new Error(message)]; [TypeError] is what the
    engine raises on a property access through [null]; [HostError] is an
    error object made by a collaborator (fetch, fs, the MBTiles driver,
    the decoder), identified by its code. *)
Inductive JsError :=
| Error (message : string)
| TypeError (message : string)
| HostError (code : string).

(** The fragment of [number] needed to evaluate
    [Math.abs(this.cacheSize - this.cache.length)]. *)
Inductive number :=
| NaN
| Num (n : Z).

(** A property read on a dictionary of objects: the own property when
    present, [undefined] otherwise. *)
Inductive value (A : Type) :=
| undefined
| object (a : A).
Arguments undefined {A}.
Arguments object {A} a.

Definition get {A} (o : gmap string A) (key : string) : value A :=
  match o !! key with
  | Some a => object a
  | None => undefined
  end.

(** [ToNumber]: [undefined] is [NaN]; an ordinary object without
    [valueOf]/[toString] overrides prints as "[object Object]", which
    is [NaN] too. *)
Definition ToNumber {A} (v : value A) : number :=
  match v with
  | undefined => NaN
  | object _ => NaN
  end.

Definition sub (a b : number) : number :=
  match a, b with
  | Num x, Num y => Num (x - y)
  | _, _ => NaN
  end.

Definition Math_abs (a : number) : number :=
  match a with
  | Num x => Num (Z.abs x)
  | NaN => NaN
  end.

(** [ToIntegerOrInfinity] sends [NaN] to [0]. *)
Definition ToIntegerOrInfinity (a : number) : Z :=
  match a with
  | Num x => x
  | NaN => 0
  end.

(** [array.splice(0, deleteCount)]: the removed prefix and what stays;
    the count is clamped to [0 .. length]. *)
Definition splice0 {A} (l : list A) (deleteCount : number) : list A * list A :=
  let n := Z.to_nat (Z.min (Z.max (ToIntegerOrInfinity deleteCount) 0)
                           (Z.of_nat (length l))) in
  (take n l, drop n l).

(** [for (const k in array)] enumerates the indices, as strings. *)
Definition for_in_keys {A} (l : list A) : list string :=
  (λ i : nat, pretty i) <$> seq 0 (length l).

(** [[z, x, y].join(sep)] on integers. *)
Definition join (sep : string) (l : list Z) : string :=
  String.concat sep ((λ n : Z, pretty n) <$> l).

Definition startsWith (s searchString : string) : bool :=
  String.prefix searchString s.

Definition endsWith (s searchString : string) : bool :=
  let n := String.length s in
  let k := String.length searchString in
  (k <=? n)%nat &&
  bool_decide (String.substring (n - k) k s = searchString).

End Js.

(** ** TileSource.ts *)

Module TileSource.
Import Js.

Definition Buffer := string.

Inductive Styler := styler_ref (id : nat).

(** The handle the MBTiles driver passes to its callback. *)
Inductive MBTilesDb := mbtiles_ref (source : string).

(** [new Tile(styler)]: a fresh object, identified by its address. *)
Record Tile := {
  tile_addr : nat;
  tile_styler : option Styler;
}.

(** [const modes = { MBTiles: 1, VectorTile: 2, HTTP: 3 }]. *)
Inductive sourceMode :=
| mode_MBTiles
| mode_VectorTile
| mode_HTTP.

Definition modes (m : sourceMode) : Z :=
  match m with
  | mode_MBTiles => 1
  | mode_VectorTile => 2
  | mode_HTTP => 3
  end.

(** The private fields of the class. *)
Record t := {
  source : option string;
  cache : gmap string Tile;
  cacheSize : Z;
  cached : list string;
  mode : option sourceMode;
  mbtiles : option MBTilesDb;
  styler : option Styler;
}.

(** Field initialisers of [class TileSource]. *)
Definition new : t := {|
  source := None;
  cache := ∅;
  cacheSize := 0;
  cached := [];
  mode := None;
  mbtiles := None;
  styler := None;
|}.

(** Interactions with the outside, in the order they are issued. *)
Inductive IO :=
| io_mkdir (path : string)
| io_readFile (path : string)
| io_writeFile (path : string) (data : Buffer)
| io_fetch (url : string)
| io_openMBTiles (source : string)
| io_mbtilesGetTile (z x y : Z).

(** The instance together with what the module closes over.
    [MBTiles] is the module-level variable, true when the dynamic import
    of the driver succeeded; [persistDownloadedTiles] is the mutable
    [config] entry; [paths_cache] is [envPaths('mapscii').cache].
    [mkdirSync] answers with the error code when it fails,
    [readFileSync] with the content when it succeeds, [decodes] is the
    decoder's verdict on a payload. [heap] counts the tiles allocated so
    far and [io] is the interaction log. *)
Record World := {
  this : t;
  MBTiles : bool;
  persistDownloadedTiles : bool;
  paths_cache : string;
  mkdirSync : string → option string;
  readFileSync : string → option Buffer;
  decodes : option Buffer → bool;
  heap : nat;
  io : list IO;
}.

Definition with_this (w : World) (s : t) : World :=
  {| this := s; MBTiles := MBTiles w;
     persistDownloadedTiles := persistDownloadedTiles w;
     paths_cache := paths_cache w; mkdirSync := mkdirSync w;
     readFileSync := readFileSync w; decodes := decodes w;
     heap := heap w; io := io w |}.

Definition with_persist (w : World) (b : bool) : World :=
  {| this := this w; MBTiles := MBTiles w;
     persistDownloadedTiles := b;
     paths_cache := paths_cache w; mkdirSync := mkdirSync w;
     readFileSync := readFileSync w; decodes := decodes w;
     heap := heap w; io := io w |}.

Definition with_heap (w : World) (n : nat) : World :=
  {| this := this w; MBTiles := MBTiles w;
     persistDownloadedTiles := persistDownloadedTiles w;
     paths_cache := paths_cache w; mkdirSync := mkdirSync w;
     readFileSync := readFileSync w; decodes := decodes w;
     heap := n; io := io w |}.

Definition log (e : IO) (w : World) : World :=
  {| this := this w; MBTiles := MBTiles w;
     persistDownloadedTiles := persistDownloadedTiles w;
     paths_cache := paths_cache w; mkdirSync := mkdirSync w;
     readFileSync := readFileSync w; decodes := decodes w;
     heap := heap w; io := io w ++ [e] |}.

Definition with_mode (s : t) (m : option sourceMode) : t :=
  {| source := source s; cache := cache s; cacheSize := cacheSize s;
     cached := cached s; mode := m; mbtiles := mbtiles s;
     styler := styler s |}.

Definition with_mbtiles (s : t) (h : option MBTilesDb) : t :=
  {| source := source s; cache := cache s; cacheSize := cacheSize s;
     cached := cached s; mode := mode s; mbtiles := h;
     styler := styler s |}.

Definition with_styler (s : t) (st : option Styler) : t :=
  {| source := source s; cache := cache s; cacheSize := cacheSize s;
     cached := cached s; mode := mode s; mbtiles := mbtiles s;
     styler := st |}.

Definition with_cache (s : t) (c : gmap string Tile) (l : list string) : t :=
  {| source := source s; cache := c; cacheSize := cacheSize s;
     cached := l; mode := mode s; mbtiles := mbtiles s;
     styler := styler s |}.

(** The messages of the errors the class throws, under the names the
    specification gives them. *)
Definition NoSourceConfigured : JsError := Error "no TileSource defined".
Definition UnsupportedSource : JsError := Error "source type isn't supported yet".
Definition MissingDependency : JsError :=
  Error "MBTiles support must be installed with following command: 'npm install -g @mapbox/mbtiles'".
Definition UnsupportedMode : JsError := Error "Unsupported tile mode".

(** A synchronous call either returns or throws. *)
Inductive completion (A : Type) :=
| returns (a : A)
| throws (e : JsError).
Arguments returns {A} a.
Arguments throws {A} e.

Definition path_join (parts : list string) : string := String.concat "/" parts.

(** [_createFolder(path)] *)
Definition _createFolder (w : World) (path : string) : World * completion bool :=
  let w := log (io_mkdir path) w in
  match mkdirSync w path with
  | None => (w, returns true)
  | Some code =>
      if bool_decide (code = "EEXIST") then (w, returns true)
      else (w, throws (HostError code))
  end.

(** [_initPersistence()] *)
Definition _initPersistence (w : World) : World :=
  match _createFolder w (paths_cache w) with
  | (w, returns _) => w
  | (w, throws _) => with_persist w false
  end.

(** What [init] hands back: it throws, or returns a promise that is
    already resolved, or the promise of [loadMBTiles], pending until the
    driver calls back. *)
Inductive InitResult :=
| init_throws (e : JsError)
| init_resolved
| init_loading (source : string).

(** [init(source)] *)
Definition init (w : World) (src : string) : World * InitResult :=
  let w := with_this w {| source := Some src; cache := ∅; cacheSize := 16;
                          cached := []; mode := None; mbtiles := None;
                          styler := None |} in
  if startsWith src "http" then
    let w := if persistDownloadedTiles w then _initPersistence w else w in
    (with_this w (with_mode (this w) (Some mode_HTTP)), init_resolved)
  else if endsWith src ".mbtiles" then
    if negb (MBTiles w) then (w, init_throws MissingDependency)
    else
      let w := with_this w (with_mode (this w) (Some mode_MBTiles)) in
      (log (io_openMBTiles src) w, init_loading src)
  else (w, init_throws UnsupportedSource).

(** The callback [loadMBTiles] passes to the driver:
    [if (err) reject(err); this.mbtiles = mbtiles; resolve();]
    The result is how the promise of [init] settles. *)
Definition loadMBTiles_callback (w : World) (err : option JsError)
    (db : option MBTilesDb) : World * completion unit :=
  (with_this w (with_mbtiles (this w) db),
   match err with
   | Some e => throws e
   | None => returns tt
   end).

(** [useStyler(styler)] *)
Definition useStyler (w : World) (st : Styler) : World :=
  with_this w (with_styler (this w) (Some st)).

(** Modelled from the spec: [Tile.js] is not among the sources. By 4.1
    (step 3) and 6 of the specification the decoder hands back the
    decoded tile: the promise of [tile.load(buffer)] fulfils with the
    tile it was called on when the payload decodes, and rejects
    otherwise. *)
Definition Tile_load (w : World) (tile : Tile) (buffer : option Buffer)
    : completion Tile :=
  if decodes w buffer then returns tile else throws (HostError "decode").

(** [_createTile(z, x, y, buffer)]; the result is how the promise it
    returns settles. *)
Definition _createTile (w : World) (z x y : Z) (buffer : option Buffer)
    : World * completion Tile :=
  let name := join "-" [z; x; y] in
  let s := this w in
  let tile := {| tile_addr := heap w; tile_styler := styler s |} in
  let w := with_heap w (S (heap w)) in
  let w := with_this w (with_cache s (<[name := tile]> (cache s))
                                     (cached s ++ [name])) in
  (w, Tile_load w tile buffer).

(** The eviction block of [getTile]:
    [if (this.cached.length > this.cacheSize) {
       const overflow = Math.abs(this.cacheSize - this.cache.length);
       for (const tile in this.cached.splice(0, overflow))
         delete this.cache[tile];
     }] *)
Definition evict (s : t) : t :=
  if Z.of_nat (length (cached s)) >? cacheSize s then
    let overflow :=
      Math_abs (sub (Num (cacheSize s)) (ToNumber (get (cache s) "length"))) in
    let '(removed, kept) := splice0 (cached s) overflow in
    with_cache s (foldl (λ c tile, delete tile c) (cache s) (for_in_keys removed))
               kept
  else s.

(** What a call of [getTile] hands back: it throws, or returns a promise
    that is already settled, or a promise waiting for one event. *)
Inductive GetTileResult :=
| gt_throws (e : JsError)
| gt_resolved (tile : Tile)
| gt_rejected (e : JsError)
| gt_awaits_persisted (buffer : Buffer)
| gt_awaits_fetch (url : string)
| gt_awaits_mbtiles (db : MBTilesDb).

Definition persisted_path (w : World) (z x y : Z) : string :=
  path_join [paths_cache w; pretty z; pretty x +:+ "-" +:+ pretty y +:+ ".pbf"].

(** [_getPersited(z, x, y)] *)
Definition _getPersited (w : World) (z x y : Z) : World * option Buffer :=
  let p := persisted_path w z x y in
  (log (io_readFile p) w, readFileSync w p).

(** [_persistTile(z, x, y, buffer)] *)
Definition _persistTile (w : World) (z x y : Z) (buffer : Buffer)
    : World * completion unit :=
  match _createFolder w (path_join [paths_cache w; pretty z]) with
  | (w, throws e) => (w, throws e)
  | (w, returns _) =>
      (log (io_writeFile (persisted_path w z x y) buffer) w, returns tt)
  end.

(** [_getHTTP(z, x, y)], up to the point where it waits. *)
Definition _getHTTP (w : World) (z x y : Z) : World * GetTileResult :=
  let '(w, persistedTile) := _getPersited w z x y in
  match (if persistDownloadedTiles w then persistedTile else None) with
  | Some buffer => (w, gt_awaits_persisted buffer)
  | None =>
      let url := default "undefined" (source (this w))
                 +:+ join "/" [z; x; y] +:+ ".pbf" in
      (log (io_fetch url) w, gt_awaits_fetch url)
  end.

(** The continuation of [_getHTTP] once [fetch] has settled: on a body,
    persist it when configured, then create the tile; a rejection
    skips both. *)
Definition _getHTTP_then (w : World) (z x y : Z) (response : completion Buffer)
    : World * completion Tile :=
  match response with
  | throws e => (w, throws e)
  | returns buffer =>
      if persistDownloadedTiles w then
        match _persistTile w z x y buffer with
        | (w, throws e) => (w, throws e)
        | (w, returns _) => _createTile w z x y (Some buffer)
        end
      else _createTile w z x y (Some buffer)
  end.

(** [_getMBTile(z, x, y)], up to the point where it waits. A [null]
    handle makes the promise's executor throw, which rejects it. *)
Definition _getMBTile (w : World) (z x y : Z) : World * GetTileResult :=
  match mbtiles (this w) with
  | None =>
      (w, gt_rejected
            (TypeError "Cannot read properties of null (reading 'getTile')"))
  | Some db => (log (io_mbtilesGetTile z x y) w, gt_awaits_mbtiles db)
  end.

(** The callback [_getMBTile] passes to the driver:
    [if (err) { reject(err); } resolve(this._createTile(z, x, y, buffer));]
    A promise settles once, so after [reject] the [resolve] is void, but
    its argument is evaluated all the same. *)
Definition _getMBTile_callback (w : World) (z x y : Z) (err : option JsError)
    (buffer : option Buffer) : World * completion Tile :=
  let '(w, loaded) := _createTile w z x y buffer in
  (w, match err with
      | Some e => throws e
      | None => loaded
      end).

(** [getTile(z, x, y)] *)
Definition getTile (w : World) (z x y : Z) : World * GetTileResult :=
  match mode (this w) with
  | None => (w, gt_throws NoSourceConfigured)
  | Some m =>
      match get (cache (this w)) (join "-" [z; x; y]) with
      | object cached => (w, gt_resolved cached)
      | undefined =>
          let w := with_this w (evict (this w)) in
          match m with
          | mode_MBTiles => _getMBTile w z x y
          | mode_HTTP => _getHTTP w z x y
          | mode_VectorTile => (w, gt_throws UnsupportedMode)
          end
      end
  end.

(** *** The event loop

    [settle] runs the continuation of a pending [getTile] when the event
    it waits for arrives; [reply] is what the collaborator answers (a
    payload or an error). The result is how the promise handed to the
    caller settles. *)
Definition settle (w : World) (z x y : Z) (r : GetTileResult)
    (reply : completion Buffer) : World * completion Tile :=
  match r with
  | gt_throws e => (w, throws e)
  | gt_resolved tile => (w, returns tile)
  | gt_rejected e => (w, throws e)
  | gt_awaits_persisted buffer => _createTile w z x y (Some buffer)
  | gt_awaits_fetch _ => _getHTTP_then w z x y reply
  | gt_awaits_mbtiles _ =>
      match reply with
      | returns buffer => _getMBTile_callback w z x y None (Some buffer)
      | throws e => _getMBTile_callback w z x y (Some e) None
      end
  end.

(** One request served to completion before the next is issued. *)
Definition request (w : World) (key : Z * Z * Z) (reply : completion Buffer)
    : World * completion Tile :=
  let '(z, x, y) := key in
  let '(w, r) := getTile w z x y in
  settle w z x y r reply.

Definition requests (w : World)
    (l : list (Z * Z * Z * completion Buffer)) : World :=
  foldl (λ w kr, fst (request w (fst kr) (snd kr))) w l.

(** The log entries that start a transfer of tile data: a network
    request or a query of the MBTiles database. *)
Definition is_fetch (e : IO) : bool :=
  match e with
  | io_fetch _ | io_mbtilesGetTile _ _ _ => true
  | _ => false
  end.

Definition fetches (w : World) : list IO := List.filter is_fetch (io w).

(** A pending result whose continuation takes an answer from outside:
    the response of [fetch] or the callback of the database. *)
Definition awaits_reply (r : GetTileResult) : bool :=
  match r with
  | gt_awaits_fetch _ | gt_awaits_mbtiles _ => true
  | _ => false
  end.

(** A host with an empty disk on which every [mkdir] succeeds and every
    payload decodes; the driver is installed. *)
Definition fresh : World := {|
  this := new;
  MBTiles := true;
  persistDownloadedTiles := true;
  paths_cache := "/home/user/.cache/mapscii";
  mkdirSync := λ _, None;
  readFileSync := λ _, None;
  decodes := λ _, true;
  heap := 0;
  io := [];
|}.

(** *** Scenarios and vocabulary for the properties below *)

(** Tile names, as [getTile] and [_createTile] compute them. *)
Definition name (key : Z * Z * Z) : string :=
  let '(z, x, y) := key in join "-" [z; x; y].

(** Eighteen distinct keys, [(5, 0, 0)] to [(5, 17, 0)], each answered
    with a payload. *)
Definition eighteen : list (Z * Z * Z * completion Buffer) :=
  (λ i : nat, ((5, Z.of_nat i, 0), returns "payload")) <$> seq 0 18.

(** An MBTiles source whose database has been opened. *)
Definition opened : World :=
  fst (loadMBTiles_callback (fst (init fresh "foo.mbtiles")) None
         (Some (mbtiles_ref "foo.mbtiles"))).

(** The two calls of the scenario below, and the two continuations. *)
Definition in_flight : World * GetTileResult * GetTileResult :=
  let w0 := fst (init fresh "http://mapscii.me/") in
  let '(w1, r1) := getTile w0 3 1 2 in
  let '(w2, r2) := getTile w1 3 1 2 in
  (w2, r1, r2).

Definition both_settled (reply1 reply2 : completion Buffer)
    : World * completion Tile * completion Tile :=
  let '(w2, r1, r2) := in_flight in
  let '(w3, outcome1) := settle w2 3 1 2 r1 reply1 in
  let '(w4, outcome2) := settle w3 3 1 2 r2 reply2 in
  (w4, outcome1, outcome2).

(** The specification's wording, "a locator starting with an HTTP
    scheme": the locator begins with [http://] or [https://]. *)
Definition has_http_scheme (src : string) : bool :=
  startsWith src "http://" || startsWith src "https://".

End TileSource.

(** ** LabelBuffer.ts *)

Module LabelBuffer.
Import Js.

#[local] Open Scope Q_scope.

Section LabelBuffer.

(** [feature] is typed [unknown] in the source. *)
Context {Feature : Type}.

(** The [string-width] package: the number of terminal columns a string
    occupies. *)
Variable stringWidth : string → nat.

(** [interface LabelBounds] *)
Record LabelBounds := {
  minX : Q;
  minY : Q;
  maxX : Q;
  maxY : Q;
  feature : option Feature;
}.

Definition with_feature (data : LabelBounds) (f : Feature) : LabelBounds :=
  {| minX := minX data; minY := minY data; maxX := maxX data;
     maxY := maxY data; feature := Some f |}.

(** *** The [rbush] package, by its contract

    The index is the collection of the inserted items, and [collides]
    and [search] are scans of it. [intersects] is rbush's own test
    (closed boxes: touching counts).

    The scan is what rbush answers as long as the items are upright
    ([min <= max] on both axes), which is what [writeIfPossible] stores
    when no margin is negative; how the R-tree arranges the items is not
    observable then. rbush's [collides] answers [true] when an item
    meets the query and also, as a shortcut, when the query contains
    the bounding box of an inner node; a box around upright items that
    lies inside the query means items that meet it. A negative margin
    can store an inverted item ([min > max]); from the tenth item on
    the tree has inner nodes, and rbush may then answer [true] where no
    item meets the query. It never answers [false] where an item meets
    the query, whatever the items. *)
Definition RBush := list LabelBounds.

Definition intersects (a b : LabelBounds) : bool :=
  Qle_bool (minX b) (maxX a) && Qle_bool (minY b) (maxY a) &&
  Qle_bool (minX a) (maxX b) && Qle_bool (minY a) (maxY b).

(** [tree.collides(bbox)] *)
Definition collides (tree : RBush) (bbox : LabelBounds) : bool :=
  existsb (intersects bbox) tree.

(** [tree.search(bbox)] *)
Definition search (tree : RBush) (bbox : LabelBounds) : list LabelBounds :=
  List.filter (intersects bbox) tree.

(** [tree.insert(item)]; it returns the tree. *)
Definition insert (tree : RBush) (item : LabelBounds) : RBush := item :: tree.

(** *** The class *)

Record t := {
  tree : RBush;
  margin : Q;
}.

(** [constructor()] *)
Definition constructor : t := {| tree := []; margin := 5 |}.

(** [clear()] *)
Definition clear (lb : t) : t := {| tree := []; margin := margin lb |}.

(** [project(x, y)] *)
Definition project (x y : Q) : Q * Q :=
  (inject_Z (Qfloor (x / 2)), inject_Z (Qfloor (y / 4))).

(** [_calculateArea(text, x, y, margin = 0)]; [None] is the omitted
    argument. *)
Definition _calculateArea (text : string) (x y : Q) (margin : option Q)
    : LabelBounds :=
  let margin := default 0 margin in
  {| minX := x - margin;
     minY := y - margin / 2;
     maxX := x + margin + inject_Z (Z.of_nat (stringWidth text));
     maxY := y + margin / 2;
     feature := None |}.

(** [_hasSpace(text, x, y)] *)
Definition _hasSpace (lb : t) (text : string) (x y : Q) : bool :=
  negb (collides (tree lb) (_calculateArea text x y None)).

(** [margin || this.margin]: an omitted argument and [0] are both
    falsy. *)
Definition or_default (margin : option Q) (this_margin : Q) : Q :=
  match margin with
  | Some m => if Qeq_bool m 0 then this_margin else m
  | None => this_margin
  end.

(** What [writeIfPossible] returns: the tree ([insert] returns it), or
    [false]. *)
Inductive WriteResult :=
| the_tree (tree : RBush)
| js_false.

(** [writeIfPossible(text, x, y, feature, margin?)] *)
Definition writeIfPossible (lb : t) (text : string) (x y : Q)
    (feature : Feature) (margin : option Q) : t * WriteResult :=
  let margin := or_default margin (LabelBuffer.margin lb) in
  let point := project x y in
  if _hasSpace lb text (fst point) (snd point) then
    let data := _calculateArea text (fst point) (snd point) (Some margin) in
    let data := with_feature data feature in
    let tree := insert (tree lb) data in
    ({| tree := tree; margin := LabelBuffer.margin lb |}, the_tree tree)
  else (lb, js_false).

(** [featuresAt(x, y)]: the search is evaluated and its result dropped;
    the body has no [return]. *)
Definition featuresAt (lb : t) (x y : Q) : value (list LabelBounds) :=
  let _ := search (tree lb)
             {| minX := x; maxX := x; minY := y; maxY := y; feature := None |} in
  undefined.

(** *** A render cycle: calls made on one instance, in order *)

Inductive Op :=
| op_clear
| op_write (text : string) (x y : Q) (feature : Feature) (margin : option Q).

Definition step (lb : t) (op : Op) : t :=
  match op with
  | op_clear => clear lb
  | op_write text x y f m => fst (writeIfPossible lb text x y f m)
  end.

Definition run (lb : t) (ops : list Op) : t := foldl step lb ops.

(** *** Vocabulary for the properties below *)

(** The query box [featuresAt] builds for a point. *)
Definition point (x y : Q) : LabelBounds :=
  {| minX := x; maxX := x; minY := y; maxY := y; feature := None |}.

(** The text that a stored rectangle was grown from. The vertical extent
    of a stored rectangle is the margin it was stored with; taking that
    margin off both ends and collapsing to the middle row gives back the
    rectangle of the bare text. *)
Definition text_box (r : LabelBounds) : LabelBounds :=
  {| minX := minX r + (maxY r - minY r);
     minY := (minY r + maxY r) / 2;
     maxX := maxX r - (maxY r - minY r);
     maxY := (minY r + maxY r) / 2;
     feature := feature r |}.

(** Every stored text is clear of the rectangles stored before it (the
    index lists the newest first). *)
Fixpoint text_clear_of_older (tree : list LabelBounds) : Prop :=
  match tree with
  | [] => True
  | r :: older =>
      Forall (λ r', intersects (text_box r) r' = false) older ∧
      text_clear_of_older older
  end.

End LabelBuffer.

Arguments LabelBounds Feature : clear implicits.
Arguments RBush Feature : clear implicits.
Arguments t Feature : clear implicits.
Arguments Op Feature : clear implicits.
Arguments WriteResult Feature : clear implicits.
Arguments constructor {Feature}.
Arguments js_false {Feature}.
Arguments op_clear {Feature}.

(** *** Scenario: features are numbered, and every character is one
    column wide, as [string-width] has it for printable ASCII *)

(** Two three-column labels on the same row, nine grid columns apart. *)
Definition two_labels : list (Op nat) :=
  [op_write "abc" 0 0 1%nat None; op_write "abc" 18 0 2%nat None].

Definition first_box : LabelBounds nat :=
  {| minX := -5; minY := -5 # 2; maxX := 8; maxY := 5 # 2; feature := Some 1%nat |}.

Definition second_box : LabelBounds nat :=
  {| minX := 4; minY := -5 # 2; maxX := 17; maxY := 5 # 2; feature := Some 2%nat |}.

End LabelBuffer.

(** ** The life of a tile source

    Everything that can happen to an instance between its creation and
    now: the calls of its user, the callbacks of its collaborators, and
    changes of the host around it. *)

From Stdlib Require Import Ascii.

Module TileSourceRun.
Import Js TileSource.

Definition with_host (w : World) (mk : string → option string)
    (rd : string → option Buffer) (dec : option Buffer → bool) : World :=
  {| this := this w; MBTiles := MBTiles w;
     persistDownloadedTiles := persistDownloadedTiles w;
     paths_cache := paths_cache w; mkdirSync := mk;
     readFileSync := rd; decodes := dec;
     heap := heap w; io := io w |}.

(** [ev_opened] is the driver's callback of [loadMBTiles]; [ev_settle]
    is the continuation of some [getTile] (any is allowed, also one that
    was issued before a later [init]); [ev_config] is an assignment to
    [config.persistDownloadedTiles] from elsewhere; [ev_host] is the
    file system and the decoder changing their answers. *)
Inductive Event :=
| ev_init (src : string)
| ev_opened (err : option JsError) (db : option MBTilesDb)
| ev_useStyler (st : Styler)
| ev_getTile (z x y : Z)
| ev_settle (z x y : Z) (r : GetTileResult) (reply : completion Buffer)
| ev_config (persist : bool)
| ev_host (mk : string → option string) (rd : string → option Buffer)
          (dec : option Buffer → bool).

Definition react (w : World) (e : Event) : World :=
  match e with
  | ev_init src => fst (init w src)
  | ev_opened err db => fst (loadMBTiles_callback w err db)
  | ev_useStyler st => useStyler w st
  | ev_getTile z x y => fst (getTile w z x y)
  | ev_settle z x y r reply => fst (settle w z x y r reply)
  | ev_config b => with_persist w b
  | ev_host mk rd dec => with_host w mk rd dec
  end.

Definition replay (w : World) (es : list Event) : World := foldl react w es.

Definition is_init (e : Event) : bool :=
  match e with
  | ev_init _ => true
  | _ => false
  end.

(** Every name of the insertion-order sequence is a key of the mapping,
    and every key of the mapping is in the sequence. *)
Definition tracked (s : t) : Prop :=
  ∀ n, n ∈ cached s ↔ is_Some (cache s !! n).

(** The mode [init] derives from a locator, when it does not throw. *)
Definition mode_of (driver : bool) (src : string) : option sourceMode :=
  if startsWith src "http" then Some mode_HTTP
  else if endsWith src ".mbtiles" && driver then Some mode_MBTiles
  else None.

(** Decimal digits, to speak about the shape of tile names. *)
Definition is_digit (c : ascii) : bool :=
  bool_decide (c ∈ ["0"; "1"; "2"; "3"; "4"; "5"; "6"; "7"; "8"; "9"]%char).

Fixpoint all_digits (s : string) : bool :=
  match s with
  | EmptyString => true
  | String c s => is_digit c && all_digits s
  end.

End TileSourceRun.

(** ** Calls on a label buffer, classified *)

Module LabelBufferRun.
Import LabelBuffer.

#[local] Open Scope Q_scope.

Definition is_clear {Feature} (op : Op Feature) : bool :=
  match op with
  | op_clear => true
  | op_write _ _ _ _ _ => false
  end.

(** A rectangle whose corners are the right way round. *)
Definition upright {Feature} (r : LabelBounds Feature) : Prop :=
  minX r <= maxX r ∧ minY r <= maxY r.

(** The margin argument of a call is left out or is not negative. *)
Definition margin_ok {Feature} (op : Op Feature) : bool :=
  match op with
  | op_write _ _ _ _ (Some m) => Qle_bool 0 m
  | _ => true
  end.

End LabelBufferRun.

(** ** The helper module [utils] (src/unnamed/part_000) and the entry of
    config.ts it reads *)

Module Config.

(** [tileRange: 14] *)
Definition tileRange : Z := 14.

End Config.

Module Utils.
Import Js.

(** *** Number helpers; numbers are exact rationals here *)

(** [clamp(num, min, max)] *)
Definition clamp (num min max : Q) : Q :=
  if Qle_bool num min then min
  else if Qle_bool max num then max
  else num.

(** [baseZoom(zoom)]:
    [Math.min(config.tileRange, Math.max(0, Math.floor(zoom)))] *)
Definition baseZoom (zoom : Q) : Z :=
  Z.min Config.tileRange (Z.max 0 (Qfloor zoom)).

(** [interface LonLat] *)
Record LonLat := {
  lon : Q;
  lat : Q;
}.

(** The literal [85.0511]. *)
Definition maxLat : Q := 850511 # 10000.

(** [normalize(ll)]: four assignments in a row, each guarded by a
    comparison on the value the one before left. The source updates the
    object it is given and returns it; the value returned is modelled. *)
Definition normalize (ll : LonLat) : LonLat :=
  let lon1 := if negb (Qle_bool (-180) (lon ll)) then (lon ll + 360)%Q else lon ll in
  let lon2 := if negb (Qle_bool lon1 180) then (lon1 - 360)%Q else lon1 in
  let lat1 := if negb (Qle_bool (lat ll) maxLat) then maxLat else lat ll in
  let lat2 := if negb (Qle_bool (- maxLat) lat1) then (- maxLat)%Q else lat1 in
  {| lon := lon2; lat := lat2 |}.

(** *** [hex2rgb(color)] on strings *)

(** The value of a character of the class [[a-fA-F0-9]]. *)
Definition hex_value (c : ascii) : option Z :=
  let n := Z.of_N (N_of_ascii c) in
  if (48 <=? n) && (n <=? 57) then Some (n - 48)
  else if (97 <=? n) && (n <=? 102) then Some (n - 87)
  else if (65 <=? n) && (n <=? 70) then Some (n - 55)
  else None.

Fixpoint all_hex (s : string) : bool :=
  match s with
  | EmptyString => true
  | String c s => bool_decide (is_Some (hex_value c)) && all_hex s
  end.

(** [/^#[a-fA-F0-9]{3,6}$/.test(color)] *)
Definition is_hex_color (color : string) : bool :=
  match color with
  | String "#" digits =>
      all_hex digits &&
      (3 <=? String.length digits)%nat && (String.length digits <=? 6)%nat
  | _ => false
  end.

(** [parseInt(s, 16)] on a string of hexadecimal digits. *)
Fixpoint parseInt16_from (acc : Z) (s : string) : Z :=
  match s with
  | EmptyString => acc
  | String c s => parseInt16_from (acc * 16 + default 0 (hex_value c)) s
  end.

Definition parseInt16 (s : string) : Z := parseInt16_from 0 s.

(** [color.substr(1)] *)
Definition substr1 (s : string) : string :=
  match s with
  | EmptyString => EmptyString
  | String _ rest => rest
  end.

(** [hex2rgb(color)] for a string argument. The number parsed is below
    [2^24], so the 32-bit shifts and masks of the source act as the
    ones of [Z]. *)
Definition hex2rgb (color : string) : TileSource.completion (list Z) :=
  if negb (is_hex_color color) then
    TileSource.throws (Error (color +:+ " isn't a supported hex color"))
  else
    let color := substr1 color in
    let decimal := parseInt16 color in
    if (String.length color =? 3)%nat then
      let rgb := [Z.shiftr decimal 8;
                  Z.land (Z.shiftr decimal 4) 15;
                  Z.land decimal 15] in
      TileSource.returns ((λ c, c + Z.shiftl c 4) <$> rgb)
    else
      TileSource.returns [Z.land (Z.shiftr decimal 16) 255;
                          Z.land (Z.shiftr decimal 8) 255;
                          Z.land decimal 255].

(** *** [population(val)] on integers *)

(** [ToInt32]: the operand of [&] and [>>] as a signed 32-bit integer. *)
Definition ToInt32 (n : Z) : Z :=
  let m := n mod 2 ^ 32 in
  if 2 ^ 31 <=? m then m - 2 ^ 32 else m.

(** The loop [while (val > 0) { bits += val & 1; val >>= 1; }], with a
    bound on the number of iterations; [None] when the bound is hit. *)
Fixpoint population_loop (fuel : nat) (bits val : Z) : option Z :=
  match fuel with
  | O => None
  | S fuel =>
      if 0 <? val then
        population_loop fuel (bits + Z.land (ToInt32 val) 1)
                        (Z.shiftr (ToInt32 val) 1)
      else Some bits
  end.

(** [population(val)] *)
Definition population (val : Z) : option Z := population_loop 33 0 val.

(** The number of ones in the binary writing of a positive number. *)
Fixpoint ones (p : positive) : Z :=
  match p with
  | xH => 1
  | xO p => ones p
  | xI p => 1 + ones p
  end.

Definition popcount (n : Z) : Z :=
  match n with
  | Zpos p => ones p
  | _ => 0
  end.

End Utils.

(** * Properties of the tile source *)

Module TileSourceTheory.
Import Js TileSource.

(** ** The store only grows *)

Lemma with_cache_id (s : t) : with_cache s (cache s) (cached s) = s.
Proof. by destruct s. Qed.

(** [this.cache.length] is never a number, so the overflow is [NaN]. *)
Lemma overflow_is_NaN (s : t) :
  Math_abs (sub (Num (cacheSize s)) (ToNumber (get (cache s) "length"))) = NaN.
Proof. unfold get. by destruct (cache s !! "length"). Qed.

Lemma splice0_NaN {A} (l : list A) : splice0 l NaN = ([], l).
Proof.
  unfold splice0. simpl ToIntegerOrInfinity.
  replace (Z.to_nat (Z.min (Z.max 0 0) (Z.of_nat (length l)))) with 0%nat by lia.
  by rewrite take_0, drop_0.
Qed.

(** The eviction block removes nothing, whatever the store holds. *)
Lemma evict_noop (s : t) : evict s = s.
Proof.
  unfold evict. case_match; [|done].
  rewrite overflow_is_NaN, splice0_NaN. simpl. apply with_cache_id.
Qed.

Lemma with_this_id (w : World) : with_this w (this w) = w.
Proof. by destruct w. Qed.

Lemma this_log e w : this (log e w) = this w.
Proof. done. Qed.

Lemma createFolder_this w p : this (fst (_createFolder w p)) = this w.
Proof. unfold _createFolder. repeat case_match; done. Qed.

Lemma persistTile_this w z x y b : this (fst (_persistTile w z x y b)) = this w.
Proof.
  unfold _persistTile.
  pose proof (createFolder_this w (path_join [paths_cache w; pretty z])) as H.
  destruct (_createFolder _ _) as [w' [r|e]]; simpl in *; done.
Qed.

(** A call of [getTile] changes no field of the instance: all it may do
    is add to the log. *)
Lemma getTile_this w z x y : this (fst (getTile w z x y)) = this w.
Proof.
  unfold getTile. destruct (mode (this w)) as [m|]; [|done].
  destruct (get _ _); [|done].
  rewrite evict_noop, with_this_id.
  destruct m; simpl; [| done |].
  - unfold _getMBTile. by destruct (mbtiles (this w)).
  - unfold _getHTTP, _getPersited. simpl. by case_match.
Qed.

(** [_createTile] appends the name and binds it to a new tile. *)
Lemma createTile_this w z x y b :
  this (fst (_createTile w z x y b)) =
  with_cache (this w)
    (<[join "-" [z; x; y] := {| tile_addr := heap w;
                                tile_styler := styler (this w) |}]>
       (cache (this w)))
    (cached (this w) ++ [join "-" [z; x; y]]).
Proof. done. Qed.

Lemma createTile_result w z x y b tile :
  snd (_createTile w z x y b) = returns tile →
  tile = {| tile_addr := heap w; tile_styler := styler (this w) |}.
Proof.
  unfold _createTile, Tile_load. simpl. case_match; congruence.
Qed.

(** What a continuation can do to the instance: nothing, or exactly one
    [_createTile]. *)
Lemma settle_this w z x y r reply :
  let w' := fst (settle w z x y r reply) in
  this w' = this w ∨
  ∃ addr, this w' =
    with_cache (this w)
      (<[join "-" [z; x; y] := {| tile_addr := addr;
                                  tile_styler := styler (this w) |}]>
         (cache (this w)))
      (cached (this w) ++ [join "-" [z; x; y]]).
Proof.
  destruct r; simpl; try (by left).
  - right. by eexists.
  - destruct reply as [b|e]; simpl; [|by left].
    destruct (persistDownloadedTiles w); [|right; by eexists].
    pose proof (persistTile_this w z x y b) as H.
    destruct (_persistTile w z x y b) as [w1 [[]|e]]; simpl in *.
    + right. rewrite H. by eexists.
    + by left.
  - destruct reply as [b|e]; right; by eexists.
Qed.

Lemma request_this w key reply :
  let w' := fst (request w key reply) in
  this w' = this w ∨
  ∃ addr, this w' =
    with_cache (this w)
      (<[name key := {| tile_addr := addr; tile_styler := styler (this w) |}]>
         (cache (this w)))
      (cached (this w) ++ [name key]).
Proof.
  destruct key as [[z x] y]. unfold request.
  pose proof (getTile_this w z x y) as H.
  destruct (getTile w z x y) as [w1 r]. simpl in H.
  pose proof (settle_this w1 z x y r reply) as H'. simpl in H'.
  rewrite H in H'. exact H'.
Qed.

(** No request ever removes a name from the mapping or from the
    insertion-order sequence. *)
Lemma request_keeps w key reply n :
  (is_Some (cache (this w) !! n) →
   is_Some (cache (this (fst (request w key reply))) !! n)) ∧
  (n ∈ cached (this w) → n ∈ cached (this (fst (request w key reply)))).
Proof.
  destruct (request_this w key reply) as [-> | [addr ->]]; [done|].
  simpl. split.
  - intros H. destruct (decide (name key = n)) as [->|Hne].
    + rewrite lookup_insert_eq. by eexists.
    + by rewrite lookup_insert_ne.
  - intros H. apply elem_of_app. by left.
Qed.

Lemma requests_keep w l n :
  (is_Some (cache (this w) !! n) → is_Some (cache (this (requests w l)) !! n)) ∧
  (n ∈ cached (this w) → n ∈ cached (this (requests w l))).
Proof.
  revert w. induction l as [|[key reply] l IH]; intros w; [done|].
  unfold requests in *. simpl.
  destruct (request_keeps w key reply n) as [H1 H2].
  destruct (IH (fst (request w key reply))) as [H3 H4]. split; auto.
Qed.

(** A request for another name leaves the entry of [n] and the mode as
    they are. *)
Lemma request_other w key reply n :
  name key ≠ n →
  cache (this (fst (request w key reply))) !! n = cache (this w) !! n ∧
  mode (this (fst (request w key reply))) = mode (this w).
Proof.
  intros Hne.
  destruct (request_this w key reply) as [-> | [addr ->]]; [done|].
  simpl. by rewrite lookup_insert_ne.
Qed.

Lemma requests_other w l n :
  Forall (λ kr : Z * Z * Z * completion Buffer, name (fst kr) ≠ n) l →
  cache (this (requests w l)) !! n = cache (this w) !! n ∧
  mode (this (requests w l)) = mode (this w).
Proof.
  revert w. induction l as [|[key reply] l IH]; intros w Hl; [done|].
  inversion_clear Hl as [|? ? Hk Hl']. simpl in Hk.
  destruct (request_other w key reply n Hk) as [H1 H2].
  destruct (IH (fst (request w key reply)) Hl') as [H3 H4].
  unfold requests in *. simpl. split; congruence.
Qed.

(** A request that ends in a tile has bound the name to that tile. *)
Lemma request_returns w key reply w1 tile :
  request w key reply = (w1, returns tile) →
  cache (this w1) !! name key = Some tile ∧ is_Some (mode (this w1)).
Proof.
  destruct key as [[z x] y]. unfold request, getTile. simpl name.
  destruct (mode (this w)) as [m|] eqn:Hm; [|simpl; congruence].
  unfold get. destruct (cache (this w) !! join "-" [z; x; y]) as [c|] eqn:Hc.
  { simpl. intros [= <- <-]. rewrite Hc, Hm. eauto. }
  rewrite evict_noop, with_this_id.
  assert (∀ w0 b, this w0 = this w →
            _createTile w0 z x y b = (w1, returns tile) →
            cache (this w1) !! join "-" [z; x; y] = Some tile ∧
            is_Some (mode (this w1))) as Hcreate.
  { intros w0 b Hw0 Hct.
    pose proof (createTile_this w0 z x y b) as Ht.
    pose proof (createTile_result w0 z x y b tile) as Hr.
    rewrite Hct in Ht, Hr. simpl in Ht, Hr. rewrite Ht, (Hr eq_refl). simpl.
    rewrite lookup_insert_eq, Hw0, Hm. eauto. }
  destruct m; simpl.
  - unfold _getMBTile. destruct (mbtiles (this w)); simpl; [|congruence].
    destruct reply as [b|e]; unfold _getMBTile_callback.
    + destruct (_createTile _ z x y (Some b)) as [w' r] eqn:Hct.
      intros [= -> ->]. by refine (Hcreate _ _ _ Hct).
    + destruct (_createTile _ z x y None) as [w' r]. congruence.
  - congruence.
  - unfold _getHTTP, _getPersited. simpl.
    destruct (if persistDownloadedTiles w then _ else _) as [b|]; simpl.
    + by apply Hcreate.
    + destruct reply as [b|e]; simpl; [|congruence].
      destruct (persistDownloadedTiles w); [|by apply Hcreate].
      pose proof (persistTile_this (log (io_fetch
        (default "undefined" (source (this w)) +:+ join "/" [z; x; y] +:+ ".pbf"))
        (log (io_readFile (persisted_path w z x y)) w)) z x y b) as Hp.
      destruct (_persistTile _ z x y b) as [w' [[]|e]]; [|congruence].
      by apply Hcreate.
Qed.

(** ** C1: eviction *)

(** C1, evaluated on the code: after [init] on an HTTP source and
    eighteen successful requests for distinct keys, the capacity is 16
    but the mapping and the insertion-order sequence both hold all
    eighteen names, the two oldest included: nothing was evicted. *)
Theorem eighteen_keys_are_all_kept :
  let w := requests (fst (init fresh "http://mapscii.me/")) eighteen in
  cacheSize (this w) = 16 ∧
  cached (this w) = (λ kr, name (fst kr)) <$> eighteen ∧
  length (cached (this w)) = 18%nat ∧
  size (cache (this w)) = 18%nat ∧
  cache (this w) !! "5-0-0" = Some {| tile_addr := 0; tile_styler := None |} ∧
  cache (this w) !! "5-1-0" = Some {| tile_addr := 1; tile_styler := None |} ∧
  take 2 (cached (this w)) = ["5-0-0"; "5-1-0"].
Proof. vm_compute. repeat split; reflexivity. Qed.

(** ** C4: a failed fetch *)

(** The HTTP path: a rejected [fetch] changes nothing. *)
Lemma getHTTP_rejected_unchanged w z x y e :
  _getHTTP_then w z x y (throws e) = (w, throws e).
Proof. done. Qed.

(** The MBTiles path: the callback runs [_createTile] also when the
    driver reports an error. *)
Lemma getMBTile_error_creates w z x y e :
  let '(w', r) := _getMBTile_callback w z x y (Some e) None in
  r = throws e ∧
  cached (this w') = cached (this w) ++ [join "-" [z; x; y]] ∧
  cache (this w') !! join "-" [z; x; y] =
    Some {| tile_addr := heap w; tile_styler := styler (this w) |}.
Proof.
  unfold _getMBTile_callback, _createTile. simpl.
  by rewrite lookup_insert_eq.
Qed.

(** C4, evaluated on the code: in MBTiles mode, [getTile(1, 0, 0)]
    whose database query fails rejects with the driver's error, and yet
    the name is appended to the sequence and bound to a tile that was
    never loaded; the next [getTile(1, 0, 0)] is a cache hit on it. *)
Theorem mbtiles_failed_fetch_is_cached :
  let '(w1, r) := getTile opened 1 0 0 in
  let '(w2, outcome) := settle w1 1 0 0 r (throws (HostError "Tile does not exist")) in
  r = gt_awaits_mbtiles (mbtiles_ref "foo.mbtiles") ∧
  outcome = throws (HostError "Tile does not exist") ∧
  cached (this opened) = [] ∧
  cache (this opened) !! "1-0-0" = None ∧
  cached (this w2) = ["1-0-0"] ∧
  cache (this w2) !! "1-0-0" = Some {| tile_addr := 0; tile_styler := None |} ∧
  snd (getTile w2 1 0 0) = gt_resolved {| tile_addr := 0; tile_styler := None |}.
Proof. vm_compute. repeat split; reflexivity. Qed.

(** ** C5: cache hits and the guard of [getTile] *)

(** C5, as the code has it: when a request for a key has ended in a
    tile, then after any further requests for other names a call of
    [getTile] for that key returns a promise already resolved with that
    very tile and changes nothing, the interaction log included (no
    fetch, no file access). [getTile] throws "no TileSource defined"
    when no mode is set, which is the case on a new instance and after
    an [init] that threw. *)
Theorem getTile_hit_and_guard (w w1 : World) (z x y : Z)
    (reply : completion Buffer) (tile : Tile)
    (others : list (Z * Z * Z * completion Buffer)) :
  (request w (z, x, y) reply = (w1, returns tile) →
   Forall (λ kr, name (fst kr) ≠ name (z, x, y)) others →
   getTile (requests w1 others) z x y =
     (requests w1 others, gt_resolved tile)) ∧
  (mode (this w) = None → getTile w z x y = (w, gt_throws NoSourceConfigured)) ∧
  (∀ src e, snd (init w src) = init_throws e →
            mode (this (fst (init w src))) = None) ∧
  mode new = None.
Proof.
  repeat split.
  - intros Hreq Hothers.
    destruct (request_returns _ _ _ _ _ Hreq) as [Hc [m Hm]].
    destruct (requests_other w1 others _ Hothers) as [Hc' Hm'].
    unfold getTile, get. simpl name in *. by rewrite Hm', Hm, Hc', Hc.
  - intros Hm. unfold getTile. by rewrite Hm.
  - intros src e. unfold init.
    destruct (startsWith src "http"); [done|].
    destruct (endsWith src ".mbtiles"); [|done].
    simpl. by destruct (MBTiles w).
Qed.

(** Worlds in which the hypotheses of the theorem hold: a tile fetched
    over HTTP and two unrelated requests; an instance never
    initialised; an [init] that throws. *)
Lemma getTile_hit_and_guard_witness :
  getTile
    (requests (fst (request (fst (init fresh "http://mapscii.me/")) (3, 1, 2)
                      (returns "payload")))
       [((3, 1, 3), returns "payload"); ((4, 1, 2), throws (HostError "ENOTFOUND"))])
    3 1 2 =
  (requests (fst (request (fst (init fresh "http://mapscii.me/")) (3, 1, 2)
                    (returns "payload")))
     [((3, 1, 3), returns "payload"); ((4, 1, 2), throws (HostError "ENOTFOUND"))],
   gt_resolved {| tile_addr := 0; tile_styler := None |}) ∧
  getTile fresh 3 1 2 = (fresh, gt_throws NoSourceConfigured) ∧
  mode (this (fst (init fresh "foo.txt"))) = None.
Proof.
  split; [|split].
  - refine (proj1 (getTile_hit_and_guard (fst (init fresh "http://mapscii.me/"))
                     _ 3 1 2 (returns "payload") _ _) _ _).
    + vm_compute. reflexivity.
    + repeat constructor; vm_compute; discriminate.
  - refine (proj1 (proj2 (getTile_hit_and_guard fresh fresh 3 1 2
                            (returns "payload")
                            {| tile_addr := 0; tile_styler := None |} [])) _).
    reflexivity.
  - refine (proj1 (proj2 (proj2 (getTile_hit_and_guard fresh fresh 3 1 2
                                   (returns "payload")
                                   {| tile_addr := 0; tile_styler := None |} [])))
              "foo.txt" UnsupportedSource _).
    reflexivity.
Defined.

(** C5, refuted as stated: [init] on an MBTiles file sets the mode
    before the database is open, so a [getTile] issued while the promise
    of [init] is still pending passes the guard; it does not fail with
    "no TileSource defined" but returns a promise rejected with a
    [TypeError]. *)
Lemma getTile_while_init_is_pending :
  snd (init fresh "foo.mbtiles") = init_loading "foo.mbtiles" ∧
  snd (getTile (fst (init fresh "foo.mbtiles")) 0 0 0) =
    gt_rejected (TypeError "Cannot read properties of null (reading 'getTile')") ∧
  snd (getTile (fst (init fresh "foo.mbtiles")) 0 0 0) ≠
    gt_throws NoSourceConfigured.
Proof. vm_compute. repeat split. discriminate. Qed.

(** ** C7: requests in flight *)

(** On a miss [getTile] is its dispatch. *)
Lemma getTile_miss w z x y :
  cache (this w) !! join "-" [z; x; y] = None →
  getTile w z x y =
  match mode (this w) with
  | None => (w, gt_throws NoSourceConfigured)
  | Some mode_MBTiles => _getMBTile w z x y
  | Some mode_HTTP => _getHTTP w z x y
  | Some mode_VectorTile => (w, gt_throws UnsupportedMode)
  end.
Proof.
  intros Hmiss. unfold getTile, get. rewrite Hmiss, evict_noop, with_this_id.
  by destruct (mode (this w)) as [[]|].
Qed.

Lemma persistTile_heap w z x y b : heap (fst (_persistTile w z x y b)) = heap w.
Proof.
  unfold _persistTile, _createFolder. simpl.
  destruct (mkdirSync w _); [|done]. by case_bool_decide.
Qed.

(** On a miss the promise [getTile] hands back is never resolved
    already. *)
Lemma getTile_miss_pending w z x y tile :
  cache (this w) !! join "-" [z; x; y] = None →
  snd (getTile w z x y) ≠ gt_resolved tile.
Proof.
  intros Hmiss. rewrite (getTile_miss _ _ _ _ Hmiss).
  destruct (mode (this w)) as [[]|]; simpl; try done.
  - unfold _getMBTile. by destruct (mbtiles (this w)).
  - unfold _getHTTP, _getPersited. simpl. by case_match.
Qed.

(** A continuation that ends in a tile has run [_createTile] once: the
    tile is a new object, and the name is appended and bound to it. *)
Lemma settle_returns w z x y r reply tile :
  (∀ t, r ≠ gt_resolved t) →
  snd (settle w z x y r reply) = returns tile →
  tile_addr tile = heap w ∧
  heap (fst (settle w z x y r reply)) = S (heap w) ∧
  cached (this (fst (settle w z x y r reply))) =
    cached (this w) ++ [join "-" [z; x; y]] ∧
  cache (this (fst (settle w z x y r reply))) !! join "-" [z; x; y] = Some tile.
Proof.
  intros Hr.
  assert (∀ w0 b, this w0 = this w → heap w0 = heap w →
            snd (_createTile w0 z x y b) = returns tile →
            tile_addr tile = heap w ∧
            heap (fst (_createTile w0 z x y b)) = S (heap w) ∧
            cached (this (fst (_createTile w0 z x y b))) =
              cached (this w) ++ [join "-" [z; x; y]] ∧
            cache (this (fst (_createTile w0 z x y b))) !! join "-" [z; x; y]
              = Some tile) as Hcreate.
  { intros w0 b Ht Hh Hres. apply createTile_result in Hres as ->.
    rewrite createTile_this. simpl. rewrite lookup_insert_eq, Ht, Hh. done. }
  destruct r; simpl; try done.
  - by destruct (Hr tile0).
  - by apply Hcreate.
  - destruct reply as [b|e]; simpl; [|done].
    destruct (persistDownloadedTiles w); [|by apply Hcreate].
    pose proof (persistTile_this w z x y b) as Ht.
    pose proof (persistTile_heap w z x y b) as Hh.
    destruct (_persistTile w z x y b) as [w' [[]|e]]; simpl in *; [|done].
    by apply Hcreate.
  - destruct reply as [b|e]; unfold _getMBTile_callback.
    + pose proof (Hcreate w (Some b) eq_refl eq_refl) as H.
      by destruct (_createTile w z x y (Some b)).
    + by destruct (_createTile w z x y None).
Qed.

(** A failed fetch or query is what the caller who issued it sees. *)
Lemma settle_throws w z x y r e :
  awaits_reply r = true → snd (settle w z x y r (throws e)) = throws e.
Proof.
  by destruct r.
Qed.

(** Whether a continuation fails, and with what, depends on its own
    reply and on the host only: not on the instance, on the heap or on
    the log. *)
Lemma settle_throws_host w w' z x y r reply e :
  persistDownloadedTiles w' = persistDownloadedTiles w →
  paths_cache w' = paths_cache w →
  mkdirSync w' = mkdirSync w →
  decodes w' = decodes w →
  snd (settle w z x y r reply) = throws e →
  snd (settle w' z x y r reply) = throws e.
Proof.
  intros Hp Hc Hm Hd.
  destruct r as [| | |b|url|db]; simpl; try done.
  - unfold Tile_load. simpl. rewrite Hd. by destruct (decodes w _).
  - destruct reply as [b|e']; simpl; [|done].
    rewrite Hp. destruct (persistDownloadedTiles w); simpl.
    + unfold _persistTile, _createFolder. simpl. rewrite Hc, Hm.
      destruct (mkdirSync w _) as [code|]; simpl.
      * case_bool_decide; simpl; [|done]. unfold Tile_load. simpl. rewrite Hd. by destruct (decodes w _).
      * unfold Tile_load. simpl. rewrite Hd. by destruct (decodes w _).
    + unfold Tile_load. simpl. rewrite Hd. by destruct (decodes w _).
  - destruct reply as [b|e']; simpl; [|done].
    unfold Tile_load. simpl. rewrite Hd. by destruct (decodes w _).
Qed.

Lemma settle_host w z x y r reply :
  let w' := fst (settle w z x y r reply) in
  persistDownloadedTiles w' = persistDownloadedTiles w ∧
  paths_cache w' = paths_cache w ∧
  mkdirSync w' = mkdirSync w ∧
  decodes w' = decodes w.
Proof.
  destruct r as [| | |b|url|db]; simpl; try done.
  - destruct reply as [b|e']; simpl; [|done].
    destruct (persistDownloadedTiles w) eqn:Hp; simpl; [|done].
    unfold _persistTile, _createFolder. simpl.
    destruct (mkdirSync w _) as [code|]; simpl; [|done].
    by case_bool_decide.
  - by destruct reply.
Qed.

(** C7, as the code has it: a call of [getTile] for a name the mapping
    does not hold leaves every field of the instance as it was, so a
    second call before the first settles takes the same path, is handed
    a promise of the same kind and issues the same interactions once
    more. Which interactions depends on the mode: in HTTP mode a file
    read and, unless a persisted payload is used, a network request; in
    MBTiles mode a database query once the database is open, and an
    immediate rejection before that. Each promise settles on its own
    reply: a caller whose fetch or query fails sees that failure,
    whatever the other is answered; whether the second promise fails,
    and with what, is what it would be had the first not settled; and
    when both calls end in a tile the two tiles are different objects,
    the name has been appended twice and the mapping holds the second
    tile. *)
Theorem getTile_miss_is_not_coalesced (w : World) (z x y : Z)
    (reply1 reply2 : completion Buffer) :
  cache (this w) !! join "-" [z; x; y] = None →
  let w1 := fst (getTile w z x y) in
  let r1 := snd (getTile w z x y) in
  let w2 := fst (getTile w1 z x y) in
  let r2 := snd (getTile w1 z x y) in
  let w3 := fst (settle w2 z x y r1 reply1) in
  let outcome1 := snd (settle w2 z x y r1 reply1) in
  let w4 := fst (settle w3 z x y r2 reply2) in
  let outcome2 := snd (settle w3 z x y r2 reply2) in
  let read := io_readFile (persisted_path w z x y) in
  let url := default "undefined" (source (this w))
             +:+ join "/" [z; x; y] +:+ ".pbf" in
  r2 = r1 ∧
  this w2 = this w ∧
  (∃ ops, io w1 = io w ++ ops ∧ io w2 = io w1 ++ ops ∧
     match mode (this w) with
     | Some mode_HTTP =>
         match (if persistDownloadedTiles w
                then readFileSync w (persisted_path w z x y) else None) with
         | None => ops = [read; io_fetch url] ∧ r1 = gt_awaits_fetch url
         | Some buffer => ops = [read] ∧ r1 = gt_awaits_persisted buffer
         end
     | Some mode_MBTiles =>
         match mbtiles (this w) with
         | Some db => ops = [io_mbtilesGetTile z x y] ∧ r1 = gt_awaits_mbtiles db
         | None =>
             ops = [] ∧
             r1 = gt_rejected
                    (TypeError "Cannot read properties of null (reading 'getTile')")
         end
     | Some mode_VectorTile => ops = [] ∧ r1 = gt_throws UnsupportedMode
     | None => ops = [] ∧ r1 = gt_throws NoSourceConfigured
     end) ∧
  (awaits_reply r1 = true →
   (∀ e, reply1 = throws e → outcome1 = throws e) ∧
   (∀ e, reply2 = throws e → outcome2 = throws e)) ∧
  (∀ e, outcome2 = throws e ↔ snd (settle w2 z x y r2 reply2) = throws e) ∧
  (∀ tile1 tile2, outcome1 = returns tile1 → outcome2 = returns tile2 →
     tile_addr tile1 ≠ tile_addr tile2 ∧
     cached (this w4) =
       cached (this w) ++ [join "-" [z; x; y]; join "-" [z; x; y]] ∧
     cache (this w4) !! join "-" [z; x; y] = Some tile2).
Proof.
  intros Hmiss. cbv zeta.
  assert (cache (this (fst (getTile w z x y))) !! join "-" [z; x; y] = None)
    as Hmiss1 by (by rewrite getTile_this).
  assert (snd (getTile (fst (getTile w z x y)) z x y) = snd (getTile w z x y)
          ∧ this (fst (getTile (fst (getTile w z x y)) z x y)) = this w) as [Hr Ht].
  { split; [|by rewrite !getTile_this].
    rewrite (getTile_miss _ _ _ _ Hmiss1), getTile_this.
    rewrite (getTile_miss _ _ _ _ Hmiss).
    destruct (mode (this w)) as [[]|]; simpl; try done.
    - unfold _getMBTile. destruct (mbtiles (this w)) as [db|] eqn:Hdb; simpl;
        by rewrite Hdb.
    - unfold _getHTTP, _getPersited. simpl. unfold persisted_path. simpl.
      destruct (if persistDownloadedTiles w then _ else _) as [b|] eqn:Hp; simpl;
        unfold persisted_path; simpl; by rewrite Hp. }
  split; [done|]. split; [done|]. rewrite Hr. split; [|split; [|split]].
  - rewrite (getTile_miss _ _ _ _ Hmiss1), getTile_this.
    rewrite (getTile_miss _ _ _ _ Hmiss).
    destruct (mode (this w)) as [[]|] eqn:Hm.
    + unfold _getMBTile. destruct (mbtiles (this w)) as [db|] eqn:Hdb; simpl;
        rewrite Hdb; simpl.
      * exists [io_mbtilesGetTile z x y]. repeat split; done.
      * exists []. rewrite !app_nil_r. repeat split; done.
    + simpl. exists []. rewrite !app_nil_r. repeat split; done.
    + unfold _getHTTP, _getPersited. simpl. unfold persisted_path. simpl.
      destruct (if persistDownloadedTiles w then _ else _) as [b|] eqn:Hp; simpl;
        unfold persisted_path; simpl; rewrite Hp; simpl.
      * eexists [_]. repeat split; done.
      * eexists [_; _]. rewrite <- !app_assoc. simpl. repeat split; done.
    + simpl. exists []. rewrite !app_nil_r. repeat split; done.
  - intros Hwait. split; intros e ->; by apply settle_throws.
  - intros e.
    destruct (settle_host (fst (getTile (fst (getTile w z x y)) z x y)) z x y
                (snd (getTile w z x y)) reply1) as (Hp & Hc & Hk & Hd).
    split; by apply settle_throws_host.
  - intros tile1 tile2 H1 H2.
    assert (∀ t, snd (getTile w z x y) ≠ gt_resolved t) as Hpend
      by (intros t; by apply getTile_miss_pending).
    destruct (settle_returns _ _ _ _ _ _ _ Hpend H1) as (Ha1 & Hh1 & Hc1 & _).
    destruct (settle_returns _ _ _ _ _ _ _ Hpend H2) as (Ha2 & _ & Hc2 & Hm2).
    split; [|split; [|done]].
    + rewrite Ha1, Ha2, Hh1. lia.
    + rewrite Hc2, Hc1, Ht, <- app_assoc. done.
Qed.

(** Two calls for an uncached tile of an HTTP source, none settled
    before the second is issued: two network requests; the first is
    answered with an error, which its caller sees, and the second with
    a payload. *)
Lemma getTile_miss_is_not_coalesced_witness :
  fetches (fst (getTile (fst (getTile (fst (init fresh "http://mapscii.me/"))
                               3 1 2)) 3 1 2)) =
  [io_fetch "http://mapscii.me/3/1/2.pbf"; io_fetch "http://mapscii.me/3/1/2.pbf"] ∧
  snd (fst (both_settled (throws (HostError "ECONNRESET")) (returns "payload"))) =
    throws (HostError "ECONNRESET").
Proof.
  destruct (getTile_miss_is_not_coalesced
              (fst (init fresh "http://mapscii.me/")) 3 1 2
              (throws (HostError "ECONNRESET")) (returns "payload") eq_refl)
    as (_ & _ & (ops & H1 & H2 & Hops & _) & Hown & _).
  split.
  - unfold fetches. rewrite H2, H1, Hops. reflexivity.
  - exact (proj1 (Hown eq_refl) _ eq_refl).
Defined.

(** C7, refuted as stated: two calls of [getTile(3, 1, 2)] on an HTTP
    source, the second before the first has settled, put two network
    requests for the same URL in the log, not one; the callers need not
    see the same result (the first request may fail and the second
    succeed), and when both succeed each caller gets a tile of its own
    and the name is appended twice. *)
Lemma concurrent_getTile_fetches_twice :
  fetches (fst (init fresh "http://mapscii.me/")) = [] ∧
  fetches (fst (fst in_flight)) =
    [io_fetch "http://mapscii.me/3/1/2.pbf"; io_fetch "http://mapscii.me/3/1/2.pbf"] ∧
  length (fetches (fst (fst in_flight))) ≠ 1%nat ∧
  snd (fst (both_settled (throws (HostError "ECONNRESET")) (returns "payload"))) =
    throws (HostError "ECONNRESET") ∧
  snd (both_settled (throws (HostError "ECONNRESET")) (returns "payload")) =
    returns {| tile_addr := 0; tile_styler := None |} ∧
  snd (fst (both_settled (returns "payload") (returns "payload"))) =
    returns {| tile_addr := 0; tile_styler := None |} ∧
  snd (both_settled (returns "payload") (returns "payload")) =
    returns {| tile_addr := 1; tile_styler := None |} ∧
  cached (this (fst (fst (both_settled (returns "payload") (returns "payload"))))) =
    ["3-1-2"; "3-1-2"].
Proof. vm_compute. repeat split. discriminate. Qed.

(** ** C8: the mode chosen by [init] *)

Lemma prefix_of_longer (p1 p2 s : string) :
  String.prefix (p1 +:+ p2) s = true → String.prefix p1 s = true.
Proof.
  revert s. induction p1 as [|a p1 IH]; intros s; [by destruct s|].
  destruct s as [|b s]; simpl; [done|].
  destruct (Ascii.ascii_dec a b); [apply IH | done].
Qed.

Lemma has_http_scheme_startsWith_http src :
  has_http_scheme src = true → startsWith src "http" = true.
Proof.
  unfold has_http_scheme, startsWith. intros [H|H]%orb_true_iff.
  - by apply (prefix_of_longer "http" "://").
  - by apply (prefix_of_longer "http" "s://").
Qed.

(** C8, as the code has it: [init] looks at the first four characters
    only. A locator that begins with "http" selects HTTP mode (so every
    [http://] and [https://] locator does, and it does whatever the
    locator ends in); otherwise a locator that ends in ".mbtiles"
    selects MBTiles mode when the driver is present and throws the
    missing-dependency error when it is not; every other locator throws
    "source type isn't supported yet". When [init] throws, no mode is
    set. *)
Theorem init_selects_mode (w : World) (src : string) :
  (if startsWith src "http" then
     snd (init w src) = init_resolved ∧
     mode (this (fst (init w src))) = Some mode_HTTP
   else if endsWith src ".mbtiles" then
     if MBTiles w then
       snd (init w src) = init_loading src ∧
       mode (this (fst (init w src))) = Some mode_MBTiles
     else
       snd (init w src) = init_throws MissingDependency ∧
       mode (this (fst (init w src))) = None
   else
     snd (init w src) = init_throws UnsupportedSource ∧
     mode (this (fst (init w src))) = None) ∧
  (has_http_scheme src = true →
   snd (init w src) = init_resolved ∧
   mode (this (fst (init w src))) = Some mode_HTTP).
Proof.
  assert (startsWith src "http" = true →
          snd (init w src) = init_resolved ∧
          mode (this (fst (init w src))) = Some mode_HTTP) as Hhttp.
  { intros H. unfold init. rewrite H. simpl.
    destruct (persistDownloadedTiles w); [|done].
    unfold _initPersistence, _createFolder. simpl.
    by repeat case_match. }
  split.
  - destruct (startsWith src "http") eqn:H1; [by apply Hhttp|].
    unfold init. rewrite H1.
    destruct (endsWith src ".mbtiles"); [|done].
    simpl. by destruct (MBTiles w).
  - intros H. by apply Hhttp, has_http_scheme_startsWith_http.
Qed.

(** The hypothesis of the last part holds of the locator in the test
    suite, whose mode is 3. *)
Lemma init_selects_mode_witness :
  mode (this (fst (init fresh "http://mapscii.me/"))) = Some mode_HTTP ∧
  modes mode_HTTP = 3.
Proof.
  split; [|reflexivity].
  exact (proj2 (proj2 (init_selects_mode fresh "http://mapscii.me/") eq_refl)).
Defined.

(** C8, refuted as stated: "httpfoo.txt" neither starts with an HTTP
    scheme nor ends in ".mbtiles", and [init] does not throw the
    unsupported-source error on it: it selects HTTP mode. *)
Lemma init_http_prefix_without_scheme :
  has_http_scheme "httpfoo.txt" = false ∧
  endsWith "httpfoo.txt" ".mbtiles" = false ∧
  snd (init fresh "httpfoo.txt") = init_resolved ∧
  mode (this (fst (init fresh "httpfoo.txt"))) = Some mode_HTTP ∧
  snd (init fresh "httpfoo.txt") ≠ init_throws UnsupportedSource.
Proof. vm_compute. repeat split. discriminate. Qed.

End TileSourceTheory.

(** * Properties of the label buffer *)

Module LabelBufferTheory.
Import Js LabelBuffer.

#[local] Open Scope Q_scope.

Section Theory.

Context {Feature : Type}.
Variable stringWidth : string → nat.

Abbreviation LabelBounds := (LabelBuffer.LabelBounds Feature).
Abbreviation t := (LabelBuffer.t Feature).
Abbreviation Op := (LabelBuffer.Op Feature).

(** ** General facts *)

Lemma intersects_ext (a a' b : LabelBounds) :
  minX a == minX a' → minY a == minY a' →
  maxX a == maxX a' → maxY a == maxY a' →
  intersects a b = intersects a' b.
Proof.
  intros H1 H2 H3 H4. unfold intersects. by rewrite H1, H2, H3, H4.
Qed.

Lemma text_box_of_stored text (x y m : Q) (f : Feature) (r : LabelBounds) :
  intersects (text_box (with_feature (_calculateArea stringWidth text x y (Some m)) f)) r
  = intersects (_calculateArea stringWidth text x y None) r.
Proof. apply intersects_ext; simpl; qlra. Qed.

Lemma collides_false (tree : list LabelBounds) (bbox : LabelBounds) :
  collides tree bbox = false ↔ Forall (λ r, intersects bbox r = false) tree.
Proof.
  unfold collides. induction tree as [|r tree IH]; simpl.
  - split; [constructor | done].
  - rewrite orb_false_iff, IH. split.
    + intros [? ?]. by constructor.
    + by inversion 1.
Qed.

(** The three ways a call can go, spelled out. *)
Lemma writeIfPossible_cases (lb : t) text x y (f : Feature) m :
  let p := project x y in
  let tested := _calculateArea stringWidth text (fst p) (snd p) None in
  let data :=
    with_feature (_calculateArea stringWidth text (fst p) (snd p)
                    (Some (or_default m (margin lb)))) f in
  writeIfPossible stringWidth lb text x y f m =
    if collides (tree lb) tested then (lb, js_false)
    else ({| tree := data :: tree lb; margin := margin lb |},
          the_tree (data :: tree lb)).
Proof.
  simpl. unfold writeIfPossible, _hasSpace.
  by destruct (collides _ _).
Qed.

Lemma step_margin (lb : t) (op : Op) : margin (step stringWidth lb op) = margin lb.
Proof.
  destruct op as [|text x y f m]; simpl; [done|].
  rewrite writeIfPossible_cases. by destruct (collides _ _).
Qed.

Lemma run_margin (lb : t) (ops : list Op) : margin (run stringWidth lb ops) = margin lb.
Proof.
  revert lb. induction ops as [|op ops IH]; intros lb; [done|].
  unfold run in *. simpl. by rewrite IH, step_margin.
Qed.

Lemma step_text_clear (lb : t) (op : Op) :
  text_clear_of_older (tree lb) →
  text_clear_of_older (tree (step stringWidth lb op)).
Proof.
  intros Hinv. destruct op as [|text x y f m]; simpl; [done|].
  rewrite writeIfPossible_cases.
  destruct (collides _ _) eqn:Hc; simpl; [done|].
  split; [|done].
  apply collides_false in Hc.
  eapply Forall_impl; [exact Hc|]. intros r Hr. simpl in Hr.
  by rewrite text_box_of_stored.
Qed.

Lemma run_text_clear (lb : t) (ops : list Op) :
  text_clear_of_older (tree lb) →
  text_clear_of_older (tree (run stringWidth lb ops)).
Proof.
  revert lb. induction ops as [|op ops IH]; intros lb Hinv; [done|].
  unfold run in *. simpl. by apply IH, step_text_clear.
Qed.

(** A box that lies inside another meets whatever the other meets. *)
Lemma intersects_inside (a b b' : LabelBounds) :
  minX b <= minX b' → maxX b' <= maxX b →
  minY b <= minY b' → maxY b' <= maxY b →
  intersects a b' = true → intersects a b = true.
Proof.
  unfold intersects. rewrite !andb_true_iff, !Qle_bool_iff.
  intros ? ? ? ? [[[? ?] ?] ?]. repeat split; lra.
Qed.

Lemma text_box_inside (r : LabelBounds) :
  minY r <= maxY r →
  minX r <= minX (text_box r) ∧ maxX (text_box r) <= maxX r ∧
  minY r <= minY (text_box r) ∧ maxY (text_box r) <= maxY r.
Proof. intros H. simpl. repeat split; qlra. Qed.

(** With margins that are not negative, stored texts do not meet. *)
Lemma texts_pairwise_disjoint (tree : list LabelBounds) :
  text_clear_of_older tree →
  Forall (λ r, minY r <= maxY r) tree →
  ForallOrdPairs (λ r r', intersects (text_box r) (text_box r') = false) tree.
Proof.
  induction tree as [|r older IH]; intros Hinv Hpos; [constructor|].
  destruct Hinv as [Hr Hinv]. inversion_clear Hpos as [|? ? _ Hpos'].
  constructor; [|by apply IH].
  rewrite Forall_forall in Hr, Hpos' |- *. intros r' Hin.
  destruct (intersects (text_box r) (text_box r')) eqn:E; [|done].
  destruct (text_box_inside r' (Hpos' _ Hin)) as (? & ? & ? & ?).
  rewrite <- (Hr r' Hin). symmetry. by eapply intersects_inside.
Qed.

(** ** C2: what the index guarantees *)

(** C2, as the code has it: at every point of a render cycle (any
    sequence of calls after a [clear]) each stored label's bare text
    rectangle meets none of the rectangles stored before it; when no
    stored rectangle has a negative margin, no two stored texts meet.
    The stored, margin-grown rectangles themselves are not kept apart.
    The last part says that [text_box] of what a call stores has the
    corners of the rectangle the call tested. *)
Theorem accepted_text_is_clear_of_earlier_boxes (lb : t) (ops : list Op) :
  text_clear_of_older (tree (run stringWidth (clear lb) ops)) ∧
  (Forall (λ r, minY r <= maxY r) (tree (run stringWidth (clear lb) ops)) →
   ForallOrdPairs (λ r r', intersects (text_box r) (text_box r') = false)
     (tree (run stringWidth (clear lb) ops))) ∧
  (∀ text x y m (f : Feature),
     let tested : LabelBounds := _calculateArea stringWidth text x y None in
     let data := with_feature (_calculateArea stringWidth text x y (Some m)) f in
     minX (text_box data) == minX tested ∧ maxX (text_box data) == maxX tested ∧
     minY (text_box data) == minY tested ∧ maxY (text_box data) == maxY tested).
Proof.
  assert (text_clear_of_older (tree (run stringWidth (clear lb) ops))) as H
    by (by apply run_text_clear).
  split; [done|]. split; [by apply texts_pairwise_disjoint|].
  intros. simpl. repeat split; qlra.
Qed.

(** ** C3: the rectangle tested and the rectangle stored *)

(** C3, as the code has it: the rectangle tested against the index is
    the bare text, one grid row high and as wide as the text, starting
    at the projected point, with no margin; the rectangle stored on
    acceptance is that rectangle grown by the effective margin to the
    left and to the right and by half of it upwards and downwards,
    tagged with the feature. Acceptance depends on the tested rectangle
    only. *)
Theorem writeIfPossible_tests_bare_stores_grown (lb : t) (text : string)
    (x y : Q) (f : Feature) (m : option Q) :
  let p := project x y in
  let width := inject_Z (Z.of_nat (stringWidth text)) in
  let tested := _calculateArea stringWidth text (fst p) (snd p) None in
  let grow := or_default m (margin lb) in
  let data :=
    with_feature (_calculateArea stringWidth text (fst p) (snd p) (Some grow)) f in
  _hasSpace stringWidth lb text (fst p) (snd p) = negb (collides (tree lb) tested) ∧
  writeIfPossible stringWidth lb text x y f m =
    (if collides (tree lb) tested then (lb, js_false)
     else ({| tree := data :: tree lb; margin := margin lb |},
           the_tree (data :: tree lb))) ∧
  (minX tested == fst p ∧ maxX tested == fst p + width ∧
   minY tested == snd p ∧ maxY tested == snd p) ∧
  (minX data == minX tested - grow ∧ maxX data == maxX tested + grow ∧
   minY data == minY tested - grow / 2 ∧ maxY data == maxY tested + grow / 2) ∧
  feature data = Some f.
Proof.
  simpl. split; [done|]. split; [apply writeIfPossible_cases|].
  repeat split; qlra.
Qed.

(** ** C6: point queries *)

Lemma featuresAt_undefined (lb : t) (x y : Q) : featuresAt lb x y = undefined.
Proof. done. Qed.

(** ** C9: projection *)

Lemma project_respects_Qeq (x x' y y' : Q) :
  x == x' → y == y' → project x y = project x' y'.
Proof. intros Hx Hy. unfold project. by rewrite Hx, Hy. Qed.

(** ** C10: the margin actually used *)

Lemma or_default_nonzero (m : option Q) (d : Q) :
  Qeq_bool d 0 = false → Qeq_bool (or_default m d) 0 = false.
Proof.
  intros Hd. destruct m as [m|]; simpl; [|done].
  by destruct (Qeq_bool m 0) eqn:E.
Qed.

(** C10: on an instance made by the constructor, whatever calls were
    made on it since, the default margin is 5, and [writeIfPossible]
    with the margin argument [0] does exactly what it does with the
    argument left out, because the effective margin of [0] is the
    default: when the text has space, the rectangle it stores is the
    text grown by 5 columns to either side and by 2.5 rows up and down,
    not the bare text. No argument at all yields an effective margin of
    zero, so no call ever stores the rectangle of the bare text: what
    an accepted call adds to the index always starts left or right of
    the projected point and is never a single row. *)
Theorem zero_margin_override_is_ignored (ops : list Op) (text : string)
    (x y : Q) (f : Feature) :
  let lb := run stringWidth constructor ops in
  let p := project x y in
  let width := inject_Z (Z.of_nat (stringWidth text)) in
  let tested := _calculateArea stringWidth text (fst p) (snd p) None in
  let grown : LabelBounds :=
    {| minX := fst p - 5; minY := snd p - 5 / 2;
       maxX := fst p + 5 + width; maxY := snd p + 5 / 2;
       feature := Some f |} in
  margin lb = 5 ∧
  or_default (Some 0) (margin lb) = 5 ∧
  writeIfPossible stringWidth lb text x y f (Some 0) =
    writeIfPossible stringWidth lb text x y f None ∧
  writeIfPossible stringWidth lb text x y f (Some 0) =
    (if collides (tree lb) tested then (lb, js_false)
     else ({| tree := grown :: tree lb; margin := 5 |},
           the_tree (grown :: tree lb))) ∧
  (¬ minX grown == minX tested ∧ ¬ maxX grown == maxX tested ∧
   ¬ minY grown == minY tested ∧ ¬ maxY grown == maxY tested) ∧
  (∀ m, Qeq_bool (or_default m (margin lb)) 0 = false) ∧
  (∀ m lb' tr,
     writeIfPossible stringWidth lb text x y f m = (lb', the_tree tr) →
     ∃ data, tr = data :: tree lb ∧ tree lb' = data :: tree lb ∧
       ¬ minX data == fst p ∧ ¬ minY data == maxY data).
Proof.
  cbv zeta. rewrite run_margin.
  split; [done|]. split; [done|]. split; [done|]. split; [|split; [|split]].
  - rewrite writeIfPossible_cases, run_margin. done.
  - simpl. repeat split; qlra.
  - intros m. by apply or_default_nonzero.
  - intros m lb' tr. rewrite writeIfPossible_cases. cbv zeta.
    destruct (collides _ _); [done|]. intros [= <- <-].
    eexists. split; [done|]. split; [done|]. rewrite run_margin.
    pose proof (or_default_nonzero m 5 eq_refl) as Hm.
    apply Qeq_bool_neq in Hm. simpl. split; intros H; apply Hm; qlra.
Qed.

End Theory.

(** C9: [project] is a function of its two arguments alone, and it is
    the floor of [x / 2] and of [y / 4]: the results are integers [i],
    [j] with [2 i <= x < 2 i + 2] and [4 j <= y < 4 j + 4]. On integer
    coordinates it is division rounding towards minus infinity, also
    for negative ones: [(-1, -1)] goes to [(-1, -1)] and [(-3, -5)] to
    [(-2, -2)], where truncation towards zero would give [(0, 0)] and
    [(-1, -1)]. *)
Theorem project_is_floor (x y : Q) (a b : Z) :
  (∃ i j : Z,
     project x y = (inject_Z i, inject_Z j) ∧
     2 * inject_Z i <= x ∧ x < 2 * inject_Z i + 2 ∧
     4 * inject_Z j <= y ∧ y < 4 * inject_Z j + 4) ∧
  project (inject_Z a) (inject_Z b) = (inject_Z (a `div` 2), inject_Z (b `div` 4)) ∧
  project (-1) (-1) = (-1, -1) ∧
  project (-3) (-5) = (-2, -2) ∧
  project 7 9 = (3, 2).
Proof.
  split; [|split; [|repeat split]].
  - exists (Qfloor (x / 2)), (Qfloor (y / 4)). split; [done|].
    pose proof (Qfloor_le (x / 2)). pose proof (Qlt_floor (x / 2)) as Hx.
    pose proof (Qfloor_le (y / 4)). pose proof (Qlt_floor (y / 4)) as Hy.
    rewrite inject_Z_plus in Hx, Hy.
    change (inject_Z 1) with 1 in *. repeat split; qlra.
  - unfold project. by rewrite (Zdiv_Qdiv a 2), (Zdiv_Qdiv b 4).
Qed.

(** ** Concrete runs *)

(** The invariant on the run above: neither margin is negative, so the
    two texts do not meet. *)
Lemma accepted_text_is_clear_of_earlier_boxes_witness :
  ForallOrdPairs (λ r r', intersects (text_box r) (text_box r') = false)
    (tree (run String.length (clear constructor) two_labels)).
Proof.
  apply (proj1 (proj2 (accepted_text_is_clear_of_earlier_boxes String.length
                         constructor two_labels))).
  repeat constructor; vm_compute; discriminate.
Defined.

(** "Berlin" written on a new instance with the margin argument 0: the
    call is accepted, and the rectangle it stores does not start at the
    projected column 50 and is not a single row. *)
Lemma zero_margin_override_is_ignored_witness :
  ∃ data : LabelBounds nat,
    tree (fst (writeIfPossible String.length constructor "Berlin" 100 100 1%nat
                 (Some 0))) = [data] ∧
    ¬ minX data == 50 ∧ ¬ minY data == maxY data.
Proof.
  destruct (proj2 (proj2 (proj2 (proj2 (proj2 (proj2
              (zero_margin_override_is_ignored String.length [] "Berlin"
                 100 100 1%nat))))))
              (Some 0) _ _ eq_refl) as (data & _ & Hlb & Hx & Hy).
  exists data. split; [exact Hlb|]. split; [exact Hx | exact Hy].
Defined.

(** C2, refuted as stated: both calls are accepted, and the two
    rectangles they insert overlap (columns 4 to 8 belong to both). *)
Lemma stored_boxes_overlap :
  tree (run String.length (clear constructor) two_labels) =
    [second_box; first_box] ∧
  intersects second_box first_box = true ∧
  intersects first_box second_box = true.
Proof. vm_compute. repeat split. Qed.

(** C3, refuted as stated: with the first label stored, the rectangle
    the second call inserts collides with the index, so a test on that
    rectangle would refuse the call; the call is accepted, because the
    rectangle it tests is another one, the bare text, which does not
    collide. *)
Lemma accepted_though_stored_box_collides :
  let lb := run String.length constructor [op_write "abc" 0 0 1%nat None] in
  tree lb = [first_box] ∧
  collides (tree lb) second_box = true ∧
  collides (tree lb) (_calculateArea String.length "abc" 9 0 None) = false ∧
  writeIfPossible String.length lb "abc" 18 0 2%nat None =
    ({| tree := [second_box; first_box]; margin := 5 |},
     the_tree [second_box; first_box]).
Proof. vm_compute. repeat split. Qed.

(** The example of the specification: a second label at the same
    position is refused and the index keeps its single rectangle. *)
Lemma berlin_twice :
  let '(lb1, r1) := writeIfPossible String.length constructor "Berlin" 100 100 1%nat None in
  let '(lb2, r2) := writeIfPossible String.length lb1 "Berlin2" 100 100 2%nat None in
  r1 = the_tree (tree lb1) ∧ r2 = js_false ∧ lb2 = lb1 ∧ length (tree lb2) = 1%nat.
Proof. vm_compute. repeat split. Qed.

(** C6, evaluated on the code: with "Berlin" placed at pixel
    (100, 100), grid point (50, 25) lies inside its rectangle and the
    search of the index finds it, feature included; [featuresAt] hands
    back [undefined] all the same. *)
Theorem featuresAt_drops_the_search_result :
  let lb := fst (writeIfPossible String.length constructor "Berlin" 100 100 1%nat None) in
  search (tree lb) (point 50 25) =
    [{| minX := 45; minY := 45 # 2; maxX := 61; maxY := 55 # 2;
        feature := Some 1%nat |}] ∧
  featuresAt lb 50 25 = undefined.
Proof. vm_compute. repeat split. Qed.

End LabelBufferTheory.

(** * Further properties of the tile source *)

Module TileSourceRunTheory.
Import Js TileSource TileSourceTheory TileSourceRun.

(** ** What each event does to the instance *)

Lemma initPersistence_this w : this (_initPersistence w) = this w.
Proof.
  unfold _initPersistence, _createFolder. simpl.
  destruct (mkdirSync w (paths_cache w)); [|done]. by case_bool_decide.
Qed.

Lemma initPersistence_MBTiles w : MBTiles (_initPersistence w) = MBTiles w.
Proof.
  unfold _initPersistence, _createFolder. simpl.
  destruct (mkdirSync w (paths_cache w)); [|done]. by case_bool_decide.
Qed.

Lemma init_this w src :
  this (fst (init w src)) =
  {| source := Some src; cache := ∅; cacheSize := 16; cached := [];
     mode := mode_of (MBTiles w) src; mbtiles := None; styler := None |}.
Proof.
  unfold init, mode_of. destruct (startsWith src "http").
  - simpl. destruct (persistDownloadedTiles w); [|done].
    by rewrite initPersistence_this.
  - destruct (endsWith src ".mbtiles"); [|done].
    simpl. by destruct (MBTiles w).
Qed.

Lemma init_MBTiles w src : MBTiles (fst (init w src)) = MBTiles w.
Proof.
  unfold init. destruct (startsWith src "http").
  - simpl. destruct (persistDownloadedTiles w); [|done].
    by rewrite initPersistence_MBTiles.
  - destruct (endsWith src ".mbtiles"); [|done].
    simpl. by destruct (MBTiles w) eqn:E.
Qed.

(** An event other than [init] leaves the instance alone, or changes
    the styler or the handle, or binds one name and appends it. *)
Lemma react_this w e :
  is_init e = false →
  this (react w e) = this w ∨
  (∃ st, this (react w e) = with_styler (this w) st) ∨
  (∃ db, this (react w e) = with_mbtiles (this w) db) ∨
  (∃ n tile, this (react w e) =
     with_cache (this w) (<[n := tile]> (cache (this w))) (cached (this w) ++ [n])).
Proof.
  destruct e as [src|err db|st|z x y|z x y r reply|b|mk rd dec]; simpl;
    intros Hi; try done.
  - right. right. left. by eexists.
  - right. left. by eexists.
  - left. apply getTile_this.
  - destruct (settle_this w z x y r reply) as [H|[addr H]]; [by left|].
    right. right. right. by eexists _, _.
  - by left.
  - by left.
Qed.

(** ** X1: the mapping and the sequence name the same tiles *)

Lemma tracked_new : tracked new.
Proof.
  intros n. simpl. rewrite lookup_empty. split.
  - by intros ?%elem_of_nil.
  - by intros [? ?].
Qed.

Lemma react_tracked w e : tracked (this w) → tracked (this (react w e)).
Proof.
  intros Ht. destruct (is_init e) eqn:Hi.
  { destruct e; try done. simpl. rewrite init_this. intros n. simpl.
    rewrite lookup_empty. split; [by intros ?%elem_of_nil | by intros [? ?]]. }
  destruct (react_this w e Hi) as [->|[[st ->]|[[db ->]|(n & tile & ->)]]];
    try done.
  intros k. simpl. rewrite elem_of_app, list_elem_of_singleton, (Ht k).
  destruct (decide (n = k)) as [->|Hne].
  - rewrite lookup_insert_eq. split; [by eexists | by right].
  - rewrite lookup_insert_ne by done. split; [|by left].
    intros [?|?]; [done | congruence].
Qed.

(** X1: From the creation of the instance on, whatever is called on it and
    whatever calls back, a name is in [cached] exactly when it is a key
    of [cache]: no entry is untracked and no tracked name lacks its
    entry. *)
Theorem replay_keeps_mapping_and_sequence_in_step (w : World) (es : list Event) :
  this w = new →
  ∀ n, n ∈ cached (this (replay w es)) ↔ is_Some (cache (this (replay w es)) !! n).
Proof.
  intros Hnew. assert (tracked (this w)) as H by (rewrite Hnew; apply tracked_new).
  clear Hnew. revert w H. induction es as [|e es IH]; intros w H; [done|].
  apply (IH (react w e)). by apply react_tracked.
Qed.

Lemma replay_keeps_mapping_and_sequence_in_step_witness :
  "3-1-2" ∈ cached (this (replay fresh
     [ev_init "http://mapscii.me/"; ev_getTile 3 1 2;
      ev_settle 3 1 2 (gt_awaits_fetch "http://mapscii.me/3/1/2.pbf")
        (returns "payload")])) ↔
  is_Some (cache (this (replay fresh
     [ev_init "http://mapscii.me/"; ev_getTile 3 1 2;
      ev_settle 3 1 2 (gt_awaits_fetch "http://mapscii.me/3/1/2.pbf")
        (returns "payload")])) !! "3-1-2").
Proof.
  exact (replay_keeps_mapping_and_sequence_in_step fresh _ eq_refl "3-1-2").
Defined.

(** ** X2: the only synchronous failure of [getTile] *)

Lemma mode_of_not_VectorTile driver src : mode_of driver src ≠ Some mode_VectorTile.
Proof. unfold mode_of. by repeat case_match. Qed.

Lemma react_mode w e :
  mode (this w) ≠ Some mode_VectorTile →
  mode (this (react w e)) ≠ Some mode_VectorTile.
Proof.
  intros H. destruct (is_init e) eqn:Hi.
  { destruct e; try done. simpl. rewrite init_this. simpl.
    apply mode_of_not_VectorTile. }
  by destruct (react_this w e Hi) as [->|[[st ->]|[[db ->]|(n & tile & ->)]]].
Qed.

Lemma replay_mode w es :
  mode (this w) ≠ Some mode_VectorTile →
  mode (this (replay w es)) ≠ Some mode_VectorTile.
Proof.
  revert w. induction es as [|e es IH]; intros w H; [done|].
  apply (IH (react w e)). by apply react_mode.
Qed.

(** X2: On an instance with any history, [getTile] throws in one situation
    only: no mode is set, and the error is "no TileSource defined". The
    mode is never [VectorTile], so the "Unsupported tile mode" branch of
    the dispatch cannot be reached; every other failure arrives as a
    rejected promise. *)
Theorem getTile_throws_only_without_mode (w : World) (es : list Event)
    (z x y : Z) (e : JsError) :
  this w = new →
  snd (getTile (replay w es) z x y) = gt_throws e →
  e = NoSourceConfigured ∧ mode (this (replay w es)) = None.
Proof.
  intros Hnew. assert (mode (this (replay w es)) ≠ Some mode_VectorTile) as Hm.
  { apply replay_mode. by rewrite Hnew. }
  unfold getTile. destruct (mode (this (replay w es))) as [m|]; simpl.
  - destruct (get _ _); simpl; [|done].
    destruct m; simpl; try done.
    + unfold _getMBTile. by case_match.
    + unfold _getHTTP, _getPersited. simpl. by case_match.
  - by intros [= <-].
Qed.

Lemma getTile_throws_only_without_mode_witness :
  UnsupportedSource ≠ NoSourceConfigured ∧
  mode (this (replay fresh [ev_init "http://mapscii.me/"; ev_init "tiles.zip"])) = None.
Proof.
  split; [discriminate|].
  exact (proj2 (getTile_throws_only_without_mode fresh
                  [ev_init "http://mapscii.me/"; ev_init "tiles.zip"]
                  0 0 0 NoSourceConfigured eq_refl eq_refl)).
Defined.

(** ** X3: nothing is removed between two [init]s *)

Lemma react_grows w e n :
  is_init e = false →
  cached (this w) `prefix_of` cached (this (react w e)) ∧
  (is_Some (cache (this w) !! n) → is_Some (cache (this (react w e)) !! n)).
Proof.
  intros Hi.
  destruct (react_this w e Hi) as [->|[[st ->]|[[db ->]|(k & tile & ->)]]];
    try done.
  simpl. split; [by apply prefix_app_r|].
  intros H. destruct (decide (k = n)) as [->|Hne].
  - rewrite lookup_insert_eq. by eexists.
  - by rewrite lookup_insert_ne.
Qed.

(** X3: As long as [init] is not called again, no call, callback or change
    of the host removes anything: the insertion-order sequence is only
    ever extended at its end, and a name that has an entry keeps one.
    In particular the length of the sequence never goes down to the
    cache size. *)
Theorem replay_without_init_only_adds (w : World) (es : list Event) (n : string) :
  forallb (λ e, negb (is_init e)) es = true →
  cached (this w) `prefix_of` cached (this (replay w es)) ∧
  (is_Some (cache (this w) !! n) → is_Some (cache (this (replay w es)) !! n)).
Proof.
  revert w. induction es as [|e es IH]; intros w Hes; [done|].
  simpl in Hes. apply andb_true_iff in Hes as [He Hes].
  apply negb_true_iff in He.
  destruct (react_grows w e n He) as [H1 H2].
  destruct (IH (react w e) Hes) as [H3 H4].
  split; [by etrans | auto].
Qed.

Lemma replay_without_init_only_adds_witness :
  cached (this opened) `prefix_of`
    cached (this (replay opened
      [ev_getTile 1 0 0; ev_useStyler (styler_ref 7);
       ev_settle 1 0 0 (gt_awaits_mbtiles (mbtiles_ref "foo.mbtiles")) (returns "payload");
       ev_config false])).
Proof.
  exact (proj1 (replay_without_init_only_adds opened
    [ev_getTile 1 0 0; ev_useStyler (styler_ref 7);
     ev_settle 1 0 0 (gt_awaits_mbtiles (mbtiles_ref "foo.mbtiles")) (returns "payload");
     ev_config false] "1-0-0" eq_refl)).
Defined.

(** ** X4: [init] forgets *)

Lemma react_MBTiles w e : MBTiles (react w e) = MBTiles w.
Proof.
  destruct e as [src|err db|st|z x y|z x y r reply|b|mk rd dec]; simpl; try done.
  - apply init_MBTiles.
  - unfold getTile. destruct (mode (this w)) as [[]|]; try done;
      destruct (get _ _); try done; simpl.
    + unfold _getMBTile. by case_match.
    + unfold _getHTTP, _getPersited. simpl. by case_match.
  - destruct r; try done; simpl.
    + destruct reply as [b|e]; [|done]. simpl.
      destruct (persistDownloadedTiles w); [|done].
      unfold _persistTile, _createFolder. simpl.
      destruct (mkdirSync w _); [|done]. by case_bool_decide.
    + by destruct reply.
Qed.

Lemma replay_MBTiles w es : MBTiles (replay w es) = MBTiles w.
Proof.
  revert w. induction es as [|e es IH]; intros w; [done|].
  unfold replay in *. simpl. by rewrite IH, react_MBTiles.
Qed.

(** X4: Whatever happened to the instance before, after [init(src)] its
    fields are those of a first [init(src)]: the mapping and the
    sequence are empty, the capacity is 16, the handle and the styler
    are unset (a styler given by [useStyler] before [init] is lost), and
    the mode depends on the locator and on the presence of the driver
    alone. This holds also when [init] throws. *)
Theorem init_forgets_the_past (w : World) (es : list Event) (src : string) :
  this (fst (init (replay w es) src)) = this (fst (init w src)) ∧
  this (fst (init w src)) =
    {| source := Some src; cache := ∅; cacheSize := 16; cached := [];
       mode := mode_of (MBTiles w) src; mbtiles := None; styler := None |}.
Proof. by rewrite !init_this, replay_MBTiles. Qed.

(** ** X5: [init] on an HTTP source and the persistence directory *)

(** X5: [init] on a locator that begins with "http" never throws. When
    persistence is configured it tries once to create the cache
    directory; persistence stays on if that succeeds or the directory
    exists already ([EEXIST]) and is switched off, for every later
    request, on any other error. When persistence is off the file
    system is not touched. *)
Theorem init_http_soft_fails (w : World) (src : string) :
  startsWith src "http" = true →
  snd (init w src) = init_resolved ∧
  persistDownloadedTiles (fst (init w src)) =
    persistDownloadedTiles w &&
    match mkdirSync w (paths_cache w) with
    | None => true
    | Some code => bool_decide (code = "EEXIST")
    end ∧
  io (fst (init w src)) =
    io w ++ (if persistDownloadedTiles w then [io_mkdir (paths_cache w)] else []).
Proof.
  intros H. unfold init. rewrite H. simpl.
  destruct (persistDownloadedTiles w) eqn:Hp; simpl.
  - unfold _initPersistence, _createFolder. simpl.
    destruct (mkdirSync w (paths_cache w)) as [code|]; [|done].
    by case_bool_decide.
  - by rewrite app_nil_r.
Qed.

Lemma init_http_soft_fails_witness :
  persistDownloadedTiles
    (fst (init (with_host fresh (λ _, Some "EACCES") (λ _, None) (λ _, true))
            "https://tiles.example/")) = false.
Proof.
  exact (proj1 (proj2 (init_http_soft_fails
    (with_host fresh (λ _, Some "EACCES") (λ _, None) (λ _, true))
    "https://tiles.example/" eq_refl))).
Defined.

(** ** X6 to X8: the three ways of an HTTP request *)

Lemma request_http_miss w z x y reply :
  mode (this w) = Some mode_HTTP →
  cache (this w) !! join "-" [z; x; y] = None →
  request w (z, x, y) reply =
    settle (fst (_getHTTP w z x y)) z x y (snd (_getHTTP w z x y)) reply.
Proof.
  intros Hm Hc. unfold request. rewrite (getTile_miss _ _ _ _ Hc), Hm.
  by destruct (_getHTTP w z x y).
Qed.

(** X6: A tile that was fetched is lost when it cannot be persisted: with
    persistence on and no persisted copy, if creating the directory of
    the zoom level fails with anything but [EEXIST], the request rejects
    with that error although the payload arrived, nothing is written,
    and the instance is left as it was (the tile is not cached). *)
Theorem failed_mkdir_fails_the_request (w : World) (z x y : Z) (b : Buffer)
    (code : string) :
  mode (this w) = Some mode_HTTP →
  cache (this w) !! join "-" [z; x; y] = None →
  persistDownloadedTiles w = true →
  readFileSync w (persisted_path w z x y) = None →
  mkdirSync w (path_join [paths_cache w; pretty z]) = Some code →
  code ≠ "EEXIST" →
  snd (request w (z, x, y) (returns b)) = throws (HostError code) ∧
  this (fst (request w (z, x, y) (returns b))) = this w ∧
  io (fst (request w (z, x, y) (returns b))) =
    io w ++ [io_readFile (persisted_path w z x y);
             io_fetch (default "undefined" (source (this w))
                       +:+ join "/" [z; x; y] +:+ ".pbf");
             io_mkdir (path_join [paths_cache w; pretty z])].
Proof.
  intros Hm Hc Hp Hr Hk Hne. rewrite (request_http_miss _ _ _ _ _ Hm Hc).
  unfold _getHTTP, _getPersited. simpl. rewrite Hp, Hr. simpl. rewrite Hp.
  unfold _persistTile, _createFolder. simpl. rewrite Hk.
  rewrite bool_decide_false by done. simpl.
  by rewrite <- !app_assoc.
Qed.

Lemma failed_mkdir_fails_the_request_witness :
  snd (request
         (with_host (fst (init fresh "http://mapscii.me/"))
            (λ _, Some "ENOSPC") (λ _, None) (λ _, true))
         (3, 1, 2) (returns "payload")) = throws (HostError "ENOSPC").
Proof.
  refine (proj1 (failed_mkdir_fails_the_request
    (with_host (fst (init fresh "http://mapscii.me/"))
       (λ _, Some "ENOSPC") (λ _, None) (λ _, true))
    3 1 2 "payload" "ENOSPC" eq_refl eq_refl eq_refl eq_refl eq_refl _)).
  discriminate.
Defined.

(** X7: With persistence on, a persisted copy is used instead of the
    network: the request reads the file, issues no fetch and writes
    nothing, whatever the network would have answered; the tile is
    created from the file's content and cached under the key's name. *)
Theorem persisted_copy_replaces_the_fetch (w : World) (z x y : Z)
    (b : Buffer) (reply : completion Buffer) :
  mode (this w) = Some mode_HTTP →
  cache (this w) !! join "-" [z; x; y] = None →
  persistDownloadedTiles w = true →
  readFileSync w (persisted_path w z x y) = Some b →
  snd (request w (z, x, y) reply) =
    Tile_load w {| tile_addr := heap w; tile_styler := styler (this w) |} (Some b) ∧
  cache (this (fst (request w (z, x, y) reply))) !! join "-" [z; x; y] =
    Some {| tile_addr := heap w; tile_styler := styler (this w) |} ∧
  io (fst (request w (z, x, y) reply)) = io w ++ [io_readFile (persisted_path w z x y)].
Proof.
  intros Hm Hc Hp Hr. rewrite (request_http_miss _ _ _ _ _ Hm Hc).
  unfold _getHTTP, _getPersited. simpl. rewrite Hp, Hr. simpl.
  by rewrite lookup_insert_eq.
Qed.

Lemma persisted_copy_replaces_the_fetch_witness :
  io (fst (request
             (with_host (fst (init fresh "http://mapscii.me/"))
                (λ _, None) (λ _, Some "persisted") (λ _, true))
             (3, 1, 2) (throws (HostError "ENOTFOUND")))) =
  [io_mkdir "/home/user/.cache/mapscii";
   io_readFile "/home/user/.cache/mapscii/3/1-2.pbf"].
Proof.
  exact (proj2 (proj2 (persisted_copy_replaces_the_fetch
    (with_host (fst (init fresh "http://mapscii.me/"))
       (λ _, None) (λ _, Some "persisted") (λ _, true))
    3 1 2 "persisted" (throws (HostError "ENOTFOUND"))
    eq_refl eq_refl eq_refl eq_refl))).
Defined.

(** X8: With persistence off, a persisted copy is looked for all the same
    (the file is read) but never used: the request goes to the network,
    and when the payload arrives the tile is cached and nothing is
    written, no directory created. *)
Theorem persistence_off_reads_but_never_writes (w : World) (z x y : Z)
    (b : Buffer) :
  mode (this w) = Some mode_HTTP →
  cache (this w) !! join "-" [z; x; y] = None →
  persistDownloadedTiles w = false →
  snd (request w (z, x, y) (returns b)) =
    Tile_load w {| tile_addr := heap w; tile_styler := styler (this w) |} (Some b) ∧
  cache (this (fst (request w (z, x, y) (returns b)))) !! join "-" [z; x; y] =
    Some {| tile_addr := heap w; tile_styler := styler (this w) |} ∧
  io (fst (request w (z, x, y) (returns b))) =
    io w ++ [io_readFile (persisted_path w z x y);
             io_fetch (default "undefined" (source (this w))
                       +:+ join "/" [z; x; y] +:+ ".pbf")].
Proof.
  intros Hm Hc Hp. rewrite (request_http_miss _ _ _ _ _ Hm Hc).
  unfold _getHTTP, _getPersited. simpl. rewrite Hp. simpl. rewrite Hp. simpl.
  by rewrite lookup_insert_eq, <- !app_assoc.
Qed.

Lemma persistence_off_reads_but_never_writes_witness :
  io (fst (request
             (with_host (fst (init (with_persist fresh false) "http://mapscii.me/"))
                (λ _, None) (λ _, Some "persisted") (λ _, true))
             (3, 1, 2) (returns "payload"))) =
  [io_readFile "/home/user/.cache/mapscii/3/1-2.pbf";
   io_fetch "http://mapscii.me/3/1/2.pbf"].
Proof.
  exact (proj2 (proj2 (persistence_off_reads_but_never_writes
    (with_host (fst (init (with_persist fresh false) "http://mapscii.me/"))
       (λ _, None) (λ _, Some "persisted") (λ _, true))
    3 1 2 "payload" eq_refl eq_refl eq_refl))).
Defined.

(** ** X9: a reply that arrives after a new [init] *)

(** X9: [init] does not cancel what is in flight: when the payload of a
    request issued for an earlier source arrives after [init] on a new
    HTTP source (persistence off), the tile is cached in the new, empty
    mapping, and the next [getTile] for that key on the new source is a
    hit on it: no request goes to the new source. *)
Theorem late_reply_lands_in_the_new_cache (w : World) (z x y : Z)
    (url : string) (b : Buffer) (src : string) :
  startsWith src "http" = true →
  persistDownloadedTiles w = false →
  cache (this (fst (init w src))) = ∅ ∧
  getTile (fst (settle (fst (init w src)) z x y (gt_awaits_fetch url) (returns b)))
    z x y =
  (fst (settle (fst (init w src)) z x y (gt_awaits_fetch url) (returns b)),
   gt_resolved {| tile_addr := heap w; tile_styler := None |}).
Proof.
  intros Hs Hp. split; [by rewrite init_this|].
  unfold init. rewrite Hs. simpl. rewrite Hp. simpl. rewrite Hp. simpl.
  unfold getTile, get. simpl. by rewrite lookup_insert_eq.
Qed.

Lemma late_reply_lands_in_the_new_cache_witness :
  snd (getTile
         (fst (settle (fst (init (with_persist fresh false) "http://other.example/"))
                 3 1 2 (gt_awaits_fetch "http://mapscii.me/3/1/2.pbf")
                 (returns "payload")))
         3 1 2) =
  gt_resolved {| tile_addr := 0; tile_styler := None |}.
Proof.
  exact (f_equal snd (proj2 (late_reply_lands_in_the_new_cache
    (with_persist fresh false) 3 1 2 "http://mapscii.me/3/1/2.pbf" "payload"
    "http://other.example/" eq_refl eq_refl))).
Defined.

(** ** X10: tile names identify tile keys *)

Lemma app_String c (s1 s2 : string) : String c s1 +:+ s2 = String c (s1 +:+ s2).
Proof. done. Qed.

Lemma app_Empty (s : string) : "" +:+ s = s.
Proof. done. Qed.

Lemma app_Empty_r (s : string) : s +:+ "" = s.
Proof. induction s as [|c s IH]; [done|]. by rewrite app_String, IH. Qed.

Lemma all_digits_app s1 s2 :
  all_digits (s1 +:+ s2) = all_digits s1 && all_digits s2.
Proof.
  induction s1 as [|c s1 IH]; [done|].
  rewrite app_String. simpl. by rewrite IH, andb_assoc.
Qed.

Lemma string_app_assoc (s1 s2 s3 : string) : (s1 +:+ s2) +:+ s3 = s1 +:+ (s2 +:+ s3).
Proof.
  induction s1 as [|c s1 IH]; [done|]. rewrite !app_String. by f_equal.
Qed.

Lemma pretty_N_char_digit x : is_digit (pretty_N_char x) = true.
Proof. unfold pretty_N_char. by repeat case_match. Qed.

Lemma pretty_N_go_digits x s :
  ∃ d, pretty_N_go x s = d +:+ s ∧ all_digits d = true ∧ ((0 < x)%N → d ≠ "").
Proof.
  revert s. induction (N.lt_wf_0 x) as [x _ IH]; intros s.
  destruct (decide (x = 0%N)) as [->|Hx].
  { exists "". rewrite pretty_N_go_0. split; [done|]. split; [done|]. lia. }
  rewrite pretty_N_go_step by lia.
  destruct (IH (x `div` 10)%N) with (s := String (pretty_N_char (x `mod` 10)) s)
    as (d & Hd & Hall & _); [apply N.div_lt; lia|].
  exists (d +:+ String (pretty_N_char (x `mod` 10)) ""). repeat split.
  - by rewrite Hd, string_app_assoc.
  - rewrite all_digits_app, Hall. simpl. by rewrite pretty_N_char_digit.
  - intros _. by destruct d.
Qed.

Lemma pretty_N_digits (x : N) : all_digits (pretty x) = true ∧ pretty x ≠ "".
Proof.
  unfold pretty, pretty_N. case_decide; [done|].
  destruct (pretty_N_go_digits x "") as (d & -> & Hall & Hne).
  rewrite app_Empty_r. split; [done|]. apply Hne. lia.
Qed.

(** A printed integer is a run of digits, with a dash in front when it
    is negative. *)
Lemma pretty_Z_shape (z : Z) :
  ∃ d, all_digits d = true ∧ d ≠ "" ∧ (pretty z = d ∨ pretty z = String "-" d).
Proof.
  destruct z as [|p|p]; unfold pretty, pretty_Z.
  - by exists "0"; repeat split; [|left].
  - destruct (pretty_N_digits (Npos p)) as [? ?]. exists (pretty (Npos p)).
    repeat split; [done|done|by left].
  - destruct (pretty_N_digits (Npos p)) as [? ?]. exists (pretty (Npos p)).
    repeat split; [done|done|by right].
Qed.

Lemma digits_dash_inj d d' s s' :
  all_digits d = true → all_digits d' = true →
  d +:+ String "-" s = d' +:+ String "-" s' → d = d' ∧ s = s'.
Proof.
  revert d'. induction d as [|c d IH]; intros [|c' d'];
    rewrite ?app_String, ?app_Empty; simpl.
  - by intros _ _ [= ->].
  - intros _ [Hc _]%andb_true_iff [= <- _]. done.
  - intros [Hc _]%andb_true_iff _ [= -> _]. done.
  - intros [_ Hd]%andb_true_iff [_ Hd']%andb_true_iff [= -> H].
    destruct (IH d' Hd Hd' H) as [-> ->]. done.
Qed.

Lemma pretty_dash_inj (z z' : Z) s s' :
  pretty z +:+ String "-" s = pretty z' +:+ String "-" s' → z = z' ∧ s = s'.
Proof.
  destruct (pretty_Z_shape z) as (d & Hd & Hne & Hz);
    destruct (pretty_Z_shape z') as (d' & Hd' & Hne' & Hz'); intros H.
  assert (pretty z = pretty z' ∧ s = s') as [Hp ->];
    [|split; [by apply (inj pretty)|done]].
  destruct Hz as [Hz|Hz], Hz' as [Hz'|Hz']; rewrite Hz, Hz' in H |- *;
    rewrite ?app_String in H.
  - by destruct (digits_dash_inj _ _ _ _ Hd Hd' H) as [-> ->].
  - destruct d as [|c d]; [done|]. rewrite app_String in H. simpl in Hd.
    apply andb_true_iff in Hd as [Hc _]. injection H as -> _. done.
  - destruct d' as [|c d']; [done|]. rewrite app_String in H. simpl in Hd'.
    apply andb_true_iff in Hd' as [Hc _]. injection H as <- _. done.
  - injection H as H.
    by destruct (digits_dash_inj _ _ _ _ Hd Hd' H) as [-> ->].
Qed.

Lemma join_dash_inj (z x y z' x' y' : Z) :
  join "-" [z; x; y] = join "-" [z'; x'; y'] → z = z' ∧ x = x' ∧ y = y'.
Proof.
  unfold join. simpl. intros H.
  apply pretty_dash_inj in H as [-> H].
  apply pretty_dash_inj in H as [-> H].
  by apply (inj pretty) in H as ->.
Qed.

(** X10: Two tile keys have the same name only when they are the same key:
    the dash-joined decimal name determines zoom, x and y, negative
    numbers included, so no two tiles ever share a cache entry. *)
Theorem tile_names_are_injective (z x y z' x' y' : Z) :
  join "-" [z; x; y] = join "-" [z'; x'; y'] → z = z' ∧ x = x' ∧ y = y'.
Proof. apply join_dash_inj. Qed.

Lemma tile_names_are_injective_witness :
  (-1 = -1 ∧ 12 = 12 ∧ 3 = 3)%Z.
Proof. exact (tile_names_are_injective (-1) 12 3 (-1) 12 3 eq_refl). Defined.

Lemma name_inj (k k' : Z * Z * Z) : name k = name k' → k = k'.
Proof.
  destruct k as [[z x] y], k' as [[z' x'] y']. simpl.
  by intros (-> & -> & ->)%join_dash_inj.
Qed.

(** ** X11: the cache has no bound *)

Lemma request_off_this w k b :
  mode (this w) = Some mode_HTTP →
  cache (this w) !! name k = None →
  persistDownloadedTiles w = false →
  this (fst (request w k (returns b))) =
    with_cache (this w)
      (<[name k := {| tile_addr := heap w; tile_styler := styler (this w) |}]>
         (cache (this w)))
      (cached (this w) ++ [name k]) ∧
  persistDownloadedTiles (fst (request w k (returns b))) = false.
Proof.
  destruct k as [[z x] y]. simpl name. intros Hm Hc Hp.
  rewrite (request_http_miss _ _ _ _ _ Hm Hc).
  unfold _getHTTP, _getPersited. simpl. rewrite Hp. simpl. by rewrite Hp.
Qed.

(** X11: On an HTTP source with persistence off, requesting any number of
    distinct, not yet cached keys, each answered with a payload, keeps
    every one of them: the sequence grows by their names in order and
    the mapping by one entry per key, however many there are. The
    capacity of 16 bounds nothing. *)
Theorem distinct_keys_all_stay (w : World) (keys : list (Z * Z * Z)) (b : Buffer) :
  mode (this w) = Some mode_HTTP →
  persistDownloadedTiles w = false →
  NoDup keys →
  Forall (λ k, cache (this w) !! name k = None) keys →
  cached (this (requests w ((λ k, (k, returns b)) <$> keys))) =
    cached (this w) ++ (name <$> keys) ∧
  size (cache (this (requests w ((λ k, (k, returns b)) <$> keys)))) =
    (size (cache (this w)) + length keys)%nat.
Proof.
  revert w. induction keys as [|k keys IH]; intros w Hm Hp Hnd Hfresh.
  { simpl. by rewrite app_nil_r, Nat.add_0_r. }
  inversion_clear Hnd as [|? ? Hk Hnd']. inversion_clear Hfresh as [|? ? Hc Hfresh'].
  destruct (request_off_this w k b Hm Hc Hp) as [Hthis Hp'].
  unfold requests in *. rewrite fmap_cons. simpl foldl.
  destruct (IH (fst (request w k (returns b)))) as [IH1 IH2].
  - by rewrite Hthis.
  - done.
  - done.
  - rewrite Hthis. simpl. rewrite Forall_forall in Hfresh' |- *.
    intros k' Hin. rewrite lookup_insert_ne; [by apply Hfresh'|].
    intros Heq%name_inj. by subst.
  - rewrite IH1, IH2, Hthis. simpl. rewrite <- app_assoc. split; [done|].
    rewrite map_size_insert_None by done. lia.
Qed.

Lemma distinct_keys_all_stay_witness :
  size (cache (this (requests (fst (init (with_persist fresh false) "http://mapscii.me/"))
                       ((λ k, (k, returns "payload")) <$> [(0, 0, 0); (1, 0, 0); (1, 1, 0)])))) =
  3%nat.
Proof.
  refine (proj2 (distinct_keys_all_stay
    (fst (init (with_persist fresh false) "http://mapscii.me/"))
    [(0, 0, 0); (1, 0, 0); (1, 1, 0)] "payload" eq_refl eq_refl _ _)).
  - repeat constructor; vm_compute; intros H;
      repeat (apply elem_of_cons in H as [H|H]; [discriminate|]);
      by apply elem_of_nil in H.
  - repeat constructor.
Defined.

(** ** X25: a request in MBTiles mode *)

Lemma request_mbtiles_miss w z x y reply :
  mode (this w) = Some mode_MBTiles →
  cache (this w) !! join "-" [z; x; y] = None →
  request w (z, x, y) reply =
    settle (fst (_getMBTile w z x y)) z x y (snd (_getMBTile w z x y)) reply.
Proof.
  intros Hm Hc. unfold request. rewrite (getTile_miss _ _ _ _ Hc), Hm.
  by destruct (_getMBTile w z x y).
Qed.

(** X25: In MBTiles mode a request for an uncached key asks the database
    once and touches no file: when the payload arrives the tile is
    created from it and cached. While there is no database handle (the
    open has not called back, or it failed) the request is rejected
    with a [TypeError] at once, nothing is asked of anyone and the
    instance is left as it was. *)
Theorem mbtiles_request_asks_the_database_once (w : World) (z x y : Z)
    (b : Buffer) (reply : completion Buffer) :
  mode (this w) = Some mode_MBTiles →
  cache (this w) !! join "-" [z; x; y] = None →
  (is_Some (mbtiles (this w)) →
   snd (request w (z, x, y) (returns b)) =
     Tile_load w {| tile_addr := heap w; tile_styler := styler (this w) |} (Some b) ∧
   cache (this (fst (request w (z, x, y) (returns b)))) !! join "-" [z; x; y] =
     Some {| tile_addr := heap w; tile_styler := styler (this w) |} ∧
   io (fst (request w (z, x, y) (returns b))) = io w ++ [io_mbtilesGetTile z x y]) ∧
  (mbtiles (this w) = None →
   request w (z, x, y) reply =
     (w, throws (TypeError "Cannot read properties of null (reading 'getTile')"))).
Proof.
  intros Hm Hc. rewrite !(request_mbtiles_miss _ _ _ _ _ Hm Hc).
  unfold _getMBTile. split.
  - intros [db Hdb]. rewrite Hdb. simpl. by rewrite lookup_insert_eq.
  - intros Hdb. by rewrite Hdb.
Qed.

Lemma mbtiles_request_asks_the_database_once_witness :
  io (fst (request opened (1, 0, 0) (returns "payload"))) =
    io opened ++ [io_mbtilesGetTile 1 0 0] ∧
  snd (request (fst (init fresh "foo.mbtiles")) (1, 0, 0) (returns "payload")) =
    throws (TypeError "Cannot read properties of null (reading 'getTile')").
Proof.
  split.
  - refine (proj2 (proj2 (proj1 (mbtiles_request_asks_the_database_once
      opened 1 0 0 "payload" (returns "payload") eq_refl eq_refl) _))).
    by eexists.
  - exact (f_equal snd (proj2 (mbtiles_request_asks_the_database_once
      (fst (init fresh "foo.mbtiles")) 1 0 0 "payload" (returns "payload")
      eq_refl eq_refl) eq_refl)).
Defined.

(** ** X26: the styler of a tile *)

(** X26: A tile carries the styler that was current when it was created.
    [useStyler] changes nothing but that field: a key that was a cache
    hit is a hit on the same tile afterwards, with the styler it was
    created with, while a tile created after [useStyler(st)] carries
    [st]. *)
Theorem useStyler_styles_new_tiles_only (w : World) (st : Styler)
    (z x y : Z) (tile : Tile) (buffer : option Buffer) :
  (snd (getTile w z x y) = gt_resolved tile →
   snd (getTile (useStyler w st) z x y) = gt_resolved tile) ∧
  cache (this (useStyler w st)) = cache (this w) ∧
  cache (this (fst (_createTile (useStyler w st) z x y buffer))) !! join "-" [z; x; y] =
    Some {| tile_addr := heap w; tile_styler := Some st |}.
Proof.
  repeat split.
  - unfold getTile. simpl.
    destruct (mode (this w)) as [m|]; [|done].
    destruct (get (cache (this w)) (join "-" [z; x; y])) as [|c]; [|done].
    rewrite evict_noop.
    destruct m; simpl; try done.
    + unfold _getMBTile. by case_match.
    + unfold _getHTTP, _getPersited. simpl. by repeat case_match.
  - simpl. by rewrite lookup_insert_eq.
Qed.

Lemma useStyler_styles_new_tiles_only_witness :
  snd (getTile (useStyler (fst (request (fst (init fresh "http://mapscii.me/"))
                                  (3, 1, 2) (returns "payload")))
                  (styler_ref 7)) 3 1 2) =
  gt_resolved {| tile_addr := 0; tile_styler := None |}.
Proof.
  exact (proj1 (useStyler_styles_new_tiles_only
    (fst (request (fst (init fresh "http://mapscii.me/")) (3, 1, 2) (returns "payload")))
    (styler_ref 7) 3 1 2 {| tile_addr := 0; tile_styler := None |} None) eq_refl).
Defined.

End TileSourceRunTheory.

(** * Further properties of the label buffer *)

Module LabelBufferRunTheory.
Import Js LabelBuffer LabelBufferTheory LabelBufferRun.

#[local] Open Scope Q_scope.

Section Theory.

Context {Feature : Type}.
Variable stringWidth : string → nat.

Abbreviation LabelBounds := (LabelBuffer.LabelBounds Feature).
Abbreviation t := (LabelBuffer.t Feature).
Abbreviation Op := (LabelBuffer.Op Feature).

Lemma width_nonneg (text : string) : 0 <= inject_Z (Z.of_nat (stringWidth text)).
Proof. change 0 with (inject_Z 0). rewrite <- Zle_Qle. lia. Qed.

Lemma intersects_true (a b : LabelBounds) :
  intersects a b = true ↔
  minX b <= maxX a ∧ minY b <= maxY a ∧ minX a <= maxX b ∧ minY a <= maxY b.
Proof. unfold intersects. rewrite !andb_true_iff, !Qle_bool_iff. tauto. Qed.

Lemma write_result (lb : t) text x y (f : Feature) m :
  snd (writeIfPossible stringWidth lb text x y f m) = js_false ↔
  collides (tree lb)
    (_calculateArea stringWidth text (fst (project x y)) (snd (project x y)) None)
  = true.
Proof.
  rewrite writeIfPossible_cases. by destruct (collides _ _).
Qed.

(** ** Within a cycle the index only gains rectangles *)

Lemma step_keeps (lb : t) (op : Op) (r : LabelBounds) :
  is_clear op = false → r ∈ tree lb → r ∈ tree (step stringWidth lb op).
Proof.
  destruct op as [|text x y f m]; [done|]. intros _ Hr. simpl.
  rewrite writeIfPossible_cases. destruct (collides _ _); [done|].
  simpl. by apply elem_of_cons; right.
Qed.

Lemma run_keeps (lb : t) (ops : list Op) (r : LabelBounds) :
  forallb (λ op, negb (is_clear op)) ops = true →
  r ∈ tree lb → r ∈ tree (run stringWidth lb ops).
Proof.
  revert lb. induction ops as [|op ops IH]; intros lb Hops Hr; [done|].
  simpl in Hops. apply andb_true_iff in Hops as [Hop Hops].
  apply negb_true_iff in Hop.
  unfold run in *. simpl. apply IH; [done|]. by apply step_keeps.
Qed.

Lemma collides_true (tree : list LabelBounds) (bbox : LabelBounds) :
  collides tree bbox = true ↔ ∃ r, r ∈ tree ∧ intersects bbox r = true.
Proof.
  unfold collides. rewrite existsb_exists.
  split; intros (r & Hr & Hi); exists r; by rewrite list_elem_of_In in *.
Qed.

(** ** Margins that are not negative store upright rectangles *)

Lemma or_default_nonneg (m : option Q) (d : Q) (text : string) (x y : Q)
    (f : Feature) :
  0 <= d → margin_ok (op_write text x y f m) = true → 0 <= or_default m d.
Proof.
  intros Hd Hm. destruct m as [m|]; simpl in *; [|done].
  destruct (Qeq_bool m 0); [done|]. by apply Qle_bool_iff.
Qed.

Lemma step_upright (lb : t) (op : Op) :
  0 <= margin lb → margin_ok op = true →
  Forall upright (tree lb) → Forall upright (tree (step stringWidth lb op)).
Proof.
  intros Hd Hop Hall. destruct op as [|text x y f m]; simpl; [constructor|].
  rewrite writeIfPossible_cases. destruct (collides _ _); [done|]. simpl.
  constructor; [|done].
  pose proof (or_default_nonneg m (margin lb) text x y f Hd Hop).
  pose proof (width_nonneg text).
  split; simpl; qlra.
Qed.

Lemma run_upright (lb : t) (ops : list Op) :
  0 <= margin lb → forallb margin_ok ops = true →
  Forall upright (tree lb) → Forall upright (tree (run stringWidth lb ops)).
Proof.
  revert lb. induction ops as [|op ops IH]; intros lb Hd Hops Hall; [done|].
  simpl in Hops. apply andb_true_iff in Hops as [Hop Hops].
  unfold run in *. simpl. apply IH; [by rewrite step_margin | done |].
  by apply step_upright.
Qed.

(** ** X12: one label per grid cell *)

(** X12: Once a label has been accepted with a margin that is not negative,
    every later label whose anchor projects to the same grid point is
    refused, whatever its text, feature and margin and whatever calls
    other than [clear] were made in between, and the index stays as it
    is. This lasts until the next [clear]: right after one, the same
    label is accepted. *)
Theorem occupied_cell_is_refused (lb : t) (ops : list Op) (t1 t2 : string)
    (x y x' y' : Q) (f1 f2 : Feature) (m1 m2 : option Q) (tr : RBush Feature) :
  snd (writeIfPossible stringWidth lb t1 x y f1 m1) = the_tree tr →
  0 <= or_default m1 (margin lb) →
  forallb (λ op, negb (is_clear op)) ops = true →
  project x' y' = project x y →
  let later :=
    run stringWidth (fst (writeIfPossible stringWidth lb t1 x y f1 m1)) ops in
  writeIfPossible stringWidth later t2 x' y' f2 m2 = (later, js_false) ∧
  snd (writeIfPossible stringWidth (clear later) t2 x' y' f2 m2) ≠ js_false.
Proof.
  intros Hacc Hm Hops Hp later. split; [|by rewrite writeIfPossible_cases].
  assert (snd (writeIfPossible stringWidth later t2 x' y' f2 m2) = js_false) as H.
  { apply write_result, collides_true.
    exists (with_feature
              (_calculateArea stringWidth t1 (fst (project x y)) (snd (project x y))
                 (Some (or_default m1 (margin lb)))) f1).
    split.
    - apply run_keeps; [done|].
      rewrite (writeIfPossible_cases stringWidth lb) in Hacc |- *. cbv zeta in *.
      destruct (collides (tree lb) _); [done|]. simpl. by apply elem_of_cons; left.
    - rewrite Hp. apply intersects_true. simpl.
      pose proof (width_nonneg t1). pose proof (width_nonneg t2).
      repeat split; qlra. }
  rewrite writeIfPossible_cases in H |- *. cbv zeta in *.
  by destruct (collides (tree later) _).
Qed.

(** ** X13: a refusal is final until the next [clear] *)

(** X13: On an instance made by the constructor on which no call passes a
    negative margin, a label that is refused stays refused within the
    render cycle: after any further calls that do not include [clear],
    the same text at the same position is refused again, with any
    feature and margin. What stands in its way is a rectangle of the
    index, an upright one, that the text meets and that is still there
    afterwards. *)
Theorem refused_stays_refused (before ops : list Op) (text : string)
    (x y : Q) (f f' : Feature) (m m' : option Q) :
  forallb margin_ok (before ++ ops) = true →
  forallb (λ op, negb (is_clear op)) ops = true →
  let lb := run stringWidth constructor before in
  let p := project x y in
  let tested := _calculateArea stringWidth text (fst p) (snd p) None in
  snd (writeIfPossible stringWidth lb text x y f m) = js_false →
  snd (writeIfPossible stringWidth (run stringWidth lb ops) text x y f' m')
    = js_false ∧
  ∃ r, r ∈ tree lb ∧ r ∈ tree (run stringWidth lb ops) ∧ upright r ∧
       intersects tested r = true.
Proof.
  intros Hm Hops lb p tested. rewrite !write_result, !collides_true.
  intros (r & Hr & Hi).
  rewrite forallb_app in Hm. apply andb_true_iff in Hm as [Hm _].
  assert (Forall upright (tree lb)) as Hup
    by (apply run_upright; [done | done | constructor]).
  rewrite Forall_forall in Hup.
  split; [exists r | exists r; split; [done|]]; split; try done;
    try (by apply run_keeps). split; [by apply Hup | done].
Qed.

(** ** X14: [clear] starts afresh *)

(** X14: After [clear] an instance made by the constructor behaves like a
    new one, whatever was placed before: any sequence of calls leads to
    the same index as on a new instance; in particular the first
    placement after [clear] is always accepted and is then the only
    rectangle of the index. *)
Theorem clear_forgets_the_cycle (before ops : list Op) (text : string)
    (x y : Q) (f : Feature) (m : option Q) :
  run stringWidth (clear (run stringWidth constructor before)) ops =
    run stringWidth constructor ops ∧
  tree (clear (run stringWidth constructor before)) = [] ∧
  ∃ r, writeIfPossible stringWidth (clear (run stringWidth constructor before))
         text x y f m =
       ({| tree := [r]; margin := 5 |}, the_tree [r]).
Proof.
  assert (clear (run stringWidth constructor before) = constructor) as ->.
  { unfold clear. by rewrite run_margin. }
  repeat split. eexists. by rewrite writeIfPossible_cases.
Qed.

(** ** X15: the spacing rule between two labels *)

(** X15: With one label in the index, stored with effective margin [g] for a
    text of width [w1] at grid point [(px1, py1)], a second label of
    width [w2] at grid point [(px2, py2)] is refused exactly when its
    text comes within [g] columns of the first text and within [g / 2]
    rows of its row (bounds included). The second label's own margin
    plays no part. *)
Theorem second_label_spacing_rule (lb : t) (t1 t2 : string) (x1 y1 x2 y2 : Q)
    (f1 f2 : Feature) (m1 m2 : option Q) :
  let g := or_default m1 (margin lb) in
  let p1 := project x1 y1 in
  let p2 := project x2 y2 in
  let w1 := inject_Z (Z.of_nat (stringWidth t1)) in
  let w2 := inject_Z (Z.of_nat (stringWidth t2)) in
  snd (writeIfPossible stringWidth
         (fst (writeIfPossible stringWidth (clear lb) t1 x1 y1 f1 m1))
         t2 x2 y2 f2 m2) = js_false ↔
  fst p1 - g <= fst p2 + w2 ∧ fst p2 <= fst p1 + w1 + g ∧
  snd p1 - g / 2 <= snd p2 ∧ snd p2 <= snd p1 + g / 2.
Proof.
  cbv zeta. rewrite write_result.
  rewrite (writeIfPossible_cases stringWidth (clear lb)). cbv zeta.
  cbn [clear tree collides existsb fst margin]. rewrite orb_false_r.
  rewrite intersects_true.
  generalize (project x1 y1), (project x2 y2). intros [a1 b1] [a2 b2]. simpl.
  split; intros (? & ? & ? & ?); repeat split; qlra.
Qed.

(** ** X16: labels with margins that are not negative never overlap *)

Lemma step_boxes_upright (lb : t) (op : Op) :
  0 <= margin lb → margin_ok op = true →
  Forall (λ r : LabelBounds, minY r <= maxY r) (tree lb) →
  Forall (λ r : LabelBounds, minY r <= maxY r) (tree (step stringWidth lb op)).
Proof.
  intros Hd Hop Hall. destruct op as [|text x y f m]; simpl; [constructor|].
  rewrite writeIfPossible_cases. destruct (collides _ _); [done|]. simpl.
  constructor; [|done]. simpl.
  assert (0 <= or_default m (margin lb)).
  { destruct m as [m|]; simpl in *; [|done].
    destruct (Qeq_bool m 0); [done|]. by apply Qle_bool_iff. }
  qlra.
Qed.

(** X16: On an instance made by the constructor, as long as no call passes a
    negative margin, the texts of the labels in the index never meet:
    no two accepted labels share a grid cell of their text rectangles,
    at any point of any cycle. *)
Theorem texts_never_overlap (ops : list Op) :
  forallb margin_ok ops = true →
  ForallOrdPairs (λ r r', intersects (text_box r) (text_box r') = false)
    (tree (run stringWidth constructor ops)).
Proof.
  intros Hops.
  assert (text_clear_of_older (tree (run stringWidth constructor ops)) ∧
          Forall (λ r : LabelBounds, minY r <= maxY r)
            (tree (run stringWidth constructor ops))) as [H1 H2].
  { split; [by apply run_text_clear|].
    assert (∀ lb : t, 0 <= margin lb →
              Forall (λ r : LabelBounds, minY r <= maxY r) (tree lb) →
              Forall (λ r : LabelBounds, minY r <= maxY r)
                (tree (run stringWidth lb ops))) as Hgen.
    { induction ops as [|op ops IH]; intros lb Hd Hall; [done|].
      simpl in Hops. apply andb_true_iff in Hops as [Hop Hops].
      unfold run in *. simpl. apply (IH Hops).
      - by rewrite step_margin.
      - by apply step_boxes_upright. }
    apply Hgen; [done | constructor]. }
  by apply texts_pairwise_disjoint.
Qed.

End Theory.

Lemma occupied_cell_is_refused_witness :
  snd (writeIfPossible String.length
         (run String.length
            (fst (writeIfPossible String.length constructor "Berlin" 100 100 1%nat None))
            [op_write "Paris" 0 0 3%nat None; op_write "Rome" 300 40 4%nat (Some 2)])
         "Potsdam" 101 103 2%nat (Some 1)) = js_false.
Proof.
  refine (f_equal snd (proj1 (occupied_cell_is_refused String.length constructor
    [op_write "Paris" 0 0 3%nat None; op_write "Rome" 300 40 4%nat (Some 2)]
    "Berlin" "Potsdam" 100 100 101 103 1%nat 2%nat None (Some 1) _
    eq_refl _ eq_refl eq_refl))).
  vm_compute. discriminate.
Defined.

Lemma refused_stays_refused_witness :
  snd (writeIfPossible String.length
         (run String.length constructor
            ([op_write "Berlin" 100 100 1%nat None] ++
             [op_write "Paris" 0 0 3%nat None; op_write "Rome" 300 40 4%nat (Some 2)]))
         "Bern" 104 102 5%nat (Some 1)) = js_false.
Proof.
  pose proof (proj1 (refused_stays_refused String.length
    [op_write "Berlin" 100 100 1%nat None]
    [op_write "Paris" 0 0 3%nat None; op_write "Rome" 300 40 4%nat (Some 2)]
    "Bern" 104 102 2%nat 5%nat None (Some 1) eq_refl eq_refl eq_refl)) as H.
  unfold run in *. rewrite foldl_app. exact H.
Defined.

Lemma texts_never_overlap_witness :
  ForallOrdPairs (λ r r', intersects (text_box r) (text_box r') = false)
    (tree (run String.length constructor
       [op_write "Berlin" 100 100 1%nat None; op_write "Paris" 0 0 3%nat (Some 0);
        op_clear; op_write "Rome" 300 40 4%nat (Some 2)])).
Proof.
  exact (texts_never_overlap String.length
    [op_write "Berlin" 100 100 1%nat None; op_write "Paris" 0 0 3%nat (Some 0);
     op_clear; op_write "Rome" 300 40 4%nat (Some 2)] eq_refl).
Defined.

End LabelBufferRunTheory.

(** * Properties of the helpers of utils.ts *)

Module UtilsTheory.
Import Js LabelBuffer Utils.

#[local] Open Scope Q_scope.

Lemma Qle_bool_false (a b : Q) : Qle_bool a b = false → b < a.
Proof.
  intros H. destruct (Qlt_le_dec b a) as [|Hle]; [done|].
  apply Qle_bool_iff in Hle. congruence.
Qed.

(** Case analysis on every comparison of the goal. *)
Ltac qcases :=
  repeat match goal with
         | |- context [Qle_bool ?a ?b] =>
             let E := fresh "E" in
             destruct (Qle_bool a b) eqn:E;
             [apply Qle_bool_iff in E | apply Qle_bool_false in E];
             simpl in *
         | H : context [Qle_bool ?a ?b] |- _ =>
             let E := fresh "E" in
             destruct (Qle_bool a b) eqn:E;
             [apply Qle_bool_iff in E | apply Qle_bool_false in E];
             simpl in *
         end.

Lemma Qfloor_unique (q : Q) (n : Z) :
  inject_Z n <= q → q < inject_Z n + 1 → Qfloor q = n.
Proof.
  intros Hlo Hhi.
  pose proof (Qfloor_resp_le _ _ Hlo) as H1. rewrite Qfloor_Z in H1.
  pose proof (Qfloor_le q) as H2.
  assert (inject_Z (Qfloor q) < inject_Z (n + 1)) as H3.
  { rewrite inject_Z_plus. change (inject_Z 1) with 1. lra. }
  rewrite <- Zlt_Qlt in H3. lia.
Qed.

(** ** X17: [project] on the pixels of one cell *)

(** X17: Every point of the 2 by 4 pixel block whose corner is
    [(2 i, 4 j)] projects to the grid point [(i, j)], for negative [i]
    and [j] as well: the block is half-open, its right and lower edges
    belong to the next cells. *)
Theorem project_is_constant_on_a_block (i j : Z) (dx dy : Q) :
  0 <= dx → dx < 2 → 0 <= dy → dy < 4 →
  project (2 * inject_Z i + dx) (4 * inject_Z j + dy) = (inject_Z i, inject_Z j).
Proof.
  intros ? ? ? ?. unfold project.
  rewrite (Qfloor_unique _ i), (Qfloor_unique _ j); [done|qlra..].
Qed.

Lemma project_is_constant_on_a_block_witness :
  project (2 * inject_Z (-3) + (3 # 2)) (4 * inject_Z 7 + (7 # 2)) =
  (inject_Z (-3), inject_Z 7).
Proof.
  apply project_is_constant_on_a_block; vm_compute; congruence.
Defined.

(** ** X18: [clamp] *)

(** X18: When [min <= max], [clamp] returns a number between [min] and
    [max], and the number itself when that is between them already.
    When the bounds are crossed ([max < min]) the result is [min] for a
    number up to [min] and [max] for every other one. *)
Theorem clamp_stays_within (num lo hi : Q) :
  (lo <= hi → lo <= clamp num lo hi ∧ clamp num lo hi <= hi) ∧
  (lo <= num → num <= hi → clamp num lo hi == num) ∧
  (hi < lo → clamp num lo hi = if Qle_bool num lo then lo else hi).
Proof.
  unfold clamp. repeat split; intros; qcases; try lra; try done.
Qed.

Lemma clamp_stays_within_witness :
  0 <= clamp 5 0 3 ∧ clamp 5 0 3 <= 3.
Proof.
  apply (proj1 (clamp_stays_within 5 0 3)). vm_compute. congruence.
Defined.

(** ** X19: [baseZoom] *)

Lemma Qfloor_nonneg (q : Q) : 0 <= q → (0 <= Qfloor q)%Z.
Proof. intros H. by apply (Qfloor_resp_le 0 q) in H. Qed.

Lemma Qfloor_lt (q : Q) (n : Z) : q < inject_Z n → (Qfloor q < n)%Z.
Proof.
  intros H. pose proof (Qfloor_le q). rewrite Zlt_Qlt. lra.
Qed.

(** X19: [baseZoom] is an integer from 0 to 14 that never exceeds a zoom
    that is not negative: it is the floor of the zoom from 0 up to
    (excluding) 15, it is 0 below and 14 from 15 on. *)
Theorem baseZoom_is_the_capped_floor (zoom : Q) :
  (0 <= baseZoom zoom <= 14)%Z ∧
  (0 <= zoom → zoom < 15 → baseZoom zoom = Qfloor zoom) ∧
  (zoom < 0 → baseZoom zoom = 0%Z) ∧
  (15 <= zoom → baseZoom zoom = 14%Z) ∧
  (0 <= zoom → inject_Z (baseZoom zoom) <= zoom).
Proof.
  unfold baseZoom, Config.tileRange. repeat split; try lia.
  - intros H0 H15. apply Qfloor_nonneg in H0.
    apply (Qfloor_lt zoom 15) in H15. lia.
  - intros H. apply (Qfloor_lt zoom 0) in H. lia.
  - intros H. apply (Qfloor_resp_le 15 zoom) in H.
    change (Qfloor 15) with 15%Z in H. lia.
  - intros H0. pose proof (Qfloor_nonneg _ H0). pose proof (Qfloor_le zoom).
    assert (Z.min 14 (Z.max 0 (Qfloor zoom)) <= Qfloor zoom)%Z as Hle by lia.
    rewrite Zle_Qle in Hle. lra.
Qed.

Lemma baseZoom_is_the_capped_floor_witness :
  baseZoom (37 # 10) = 3%Z.
Proof.
  refine (proj1 (proj2 (baseZoom_is_the_capped_floor (37 # 10))) _ _);
    vm_compute; congruence.
Defined.

(** ** X20: [normalize] *)

(** X20: [normalize] always brings the latitude into
    [-85.0511 .. 85.0511]. The longitude is moved by one turn at most:
    it comes out in [-180 .. 180] when it went in between -540 and 540,
    and a longitude further out stays out of range. Coordinates already
    in range are returned unchanged. *)
Theorem normalize_wraps_once (ll : LonLat) :
  (- maxLat <= lat (normalize ll) ∧ lat (normalize ll) <= maxLat) ∧
  (lon (normalize ll) = lon ll ∨ lon (normalize ll) = lon ll + 360 ∨
   lon (normalize ll) = lon ll - 360) ∧
  (-540 <= lon ll → lon ll <= 540 →
   -180 <= lon (normalize ll) ∧ lon (normalize ll) <= 180) ∧
  (540 < lon ll → 180 < lon (normalize ll)) ∧
  (-180 <= lon ll → lon ll <= 180 → - maxLat <= lat ll → lat ll <= maxLat →
   normalize ll = ll).
Proof.
  destruct ll as [lo la]. unfold normalize, maxLat. simpl.
  repeat split; intros; qcases; simpl in *;
    try lra; try (exfalso; lra); auto.
Qed.

Lemma normalize_wraps_once_witness :
  -180 <= lon (normalize {| lon := 190; lat := 90 |}) ∧
  lon (normalize {| lon := 190; lat := 90 |}) <= 180.
Proof.
  apply (proj1 (proj2 (proj2 (normalize_wraps_once {| lon := 190; lat := 90 |}))));
    vm_compute; congruence.
Defined.

(** ** X21 to X23: [hex2rgb] *)

#[local] Open Scope Z_scope.

Lemma hex_value_range c v : hex_value c = Some v → 0 <= v <= 15.
Proof.
  unfold hex_value.
  repeat (case_match; [intros [= <-]; lia|]). done.
Qed.

Lemma land_mask (x : Z) (n : Z) :
  0 <= n → Z.land x (Z.ones n) = x mod 2 ^ n.
Proof. intros. by apply Z.land_ones. Qed.

(** The three expressions of the long form, as arithmetic. *)
Lemma long_form (d : Z) :
  Z.land (Z.shiftr d 16) 255 = (d / 65536) mod 256 ∧
  Z.land (Z.shiftr d 8) 255 = (d / 256) mod 256 ∧
  Z.land d 255 = d mod 256.
Proof.
  change 255 with (Z.ones 8). rewrite !land_mask, !Z.shiftr_div_pow2 by lia.
  done.
Qed.

Lemma doubled_nibble (c : Z) : c + Z.shiftl c 4 = 17 * c.
Proof. rewrite Z.shiftl_mul_pow2 by lia. change (2 ^ 4) with 16. lia. Qed.

(** The three expressions of the short form, as arithmetic. *)
Lemma short_form (d : Z) :
  (λ c, c + Z.shiftl c 4) <$> [Z.shiftr d 8; Z.land (Z.shiftr d 4) 15; Z.land d 15] =
  [17 * (d / 256); 17 * ((d / 16) mod 16); 17 * (d mod 16)].
Proof.
  change 15 with (Z.ones 4).
  rewrite !land_mask, !Z.shiftr_div_pow2 by lia.
  cbn [fmap list_fmap]. by rewrite !doubled_nibble.
Qed.

Lemma short_form_list (d : Z) :
  [Z.shiftr d 8 + Z.shiftl (Z.shiftr d 8) 4;
   Z.land (Z.shiftr d 4) 15 + Z.shiftl (Z.land (Z.shiftr d 4) 15) 4;
   Z.land d 15 + Z.shiftl (Z.land d 15) 4] =
  [17 * (d / 256); 17 * ((d / 16) mod 16); 17 * (d mod 16)].
Proof. exact (short_form d). Qed.

(** Rewrite the shifts and masks of the goal to quotients and
    remainders, then compare component by component. *)
Ltac long_arith :=
  rewrite (proj1 (long_form _)), (proj1 (proj2 (long_form _))),
    (proj2 (proj2 (long_form _)));
  repeat f_equal; Z.div_mod_to_equations; lia.

Ltac short_arith :=
  rewrite short_form_list;
  repeat f_equal; Z.div_mod_to_equations; lia.

Lemma parseInt16_bounds (s : string) (acc : Z) :
  all_hex s = true → 0 <= acc →
  acc * 16 ^ Z.of_nat (String.length s) <= parseInt16_from acc s
    < (acc + 1) * 16 ^ Z.of_nat (String.length s).
Proof.
  revert acc. induction s as [|c s IH]; intros acc Hs Hacc.
  { simpl. lia. }
  simpl in Hs. apply andb_true_iff in Hs as [Hc Hs].
  apply bool_decide_eq_true in Hc as [v Hv].
  pose proof (hex_value_range _ _ Hv).
  cbn [parseInt16_from String.length]. rewrite Hv. simpl default.
  specialize (IH (acc * 16 + v) Hs ltac:(lia)).
  rewrite Nat2Z.inj_succ, Z.pow_succ_r by lia. nia.
Qed.

(** X21: [hex2rgb] accepts exactly a "#" followed by three to six
    hexadecimal digits and throws "<color> isn't a supported hex color"
    on every other string; what it returns is always three numbers from
    0 to 255. *)
Theorem hex2rgb_returns_three_bytes (color : string) :
  match hex2rgb color with
  | TileSource.throws e =>
      is_hex_color color = false ∧
      e = Error (color +:+ " isn't a supported hex color")
  | TileSource.returns l =>
      is_hex_color color = true ∧
      ∃ r g b, l = [r; g; b] ∧ 0 <= r <= 255 ∧ 0 <= g <= 255 ∧ 0 <= b <= 255
  end.
Proof.
  unfold hex2rgb. destruct (is_hex_color color) eqn:Hc; cbn [negb]; [|done].
  destruct color as [|h digits]; [done|]. unfold is_hex_color in Hc.
  assert (all_hex digits = true ∧ (3 <= String.length digits <= 6)%nat)
    as [Hhex Hlen].
  { destruct h as [[] [] [] [] [] [] [] []]; try discriminate Hc.
    apply andb_true_iff in Hc as [[? ?%Nat.leb_le]%andb_true_iff ?%Nat.leb_le].
    done. }
  cbn [substr1]. unfold parseInt16.
  pose proof (parseInt16_bounds digits 0 Hhex ltac:(lia)) as Hb.
  destruct (String.length digits =? 3)%nat eqn:H3.
  - apply Nat.eqb_eq in H3. rewrite H3 in Hb. split; [done|].
    rewrite short_form. eexists _, _, _. split; [done|].
    change (16 ^ Z.of_nat 3) with 4096 in Hb.
    repeat split; try (apply Z.mul_nonneg_nonneg; [lia|]);
      Z.div_mod_to_equations; lia.
  - split; [done|]. destruct (long_form (parseInt16_from 0 digits)) as (-> & -> & ->).
    eexists _, _, _. split; [done|].
    repeat split; Z.div_mod_to_equations; lia.
Qed.

(** X22: Six digits are read as three pairs, most significant first; three
    digits stand for the colour with every digit doubled, so "#abc"
    and "#aabbcc" are the same colour. *)
Theorem hex2rgb_reads_pairs_and_doubles_singles
    (c1 c2 c3 c4 c5 c6 : ascii) (v1 v2 v3 v4 v5 v6 : Z) :
  hex_value c1 = Some v1 → hex_value c2 = Some v2 → hex_value c3 = Some v3 →
  hex_value c4 = Some v4 → hex_value c5 = Some v5 → hex_value c6 = Some v6 →
  hex2rgb (String "#" (String c1 (String c2 (String c3
            (String c4 (String c5 (String c6 ""))))))) =
    TileSource.returns [16 * v1 + v2; 16 * v3 + v4; 16 * v5 + v6] ∧
  hex2rgb (String "#" (String c1 (String c2 (String c3 "")))) =
    TileSource.returns [17 * v1; 17 * v2; 17 * v3] ∧
  hex2rgb (String "#" (String c1 (String c2 (String c3 "")))) =
    hex2rgb (String "#" (String c1 (String c1 (String c2
              (String c2 (String c3 (String c3 ""))))))).
Proof.
  intros H1 H2 H3 H4 H5 H6.
  pose proof (hex_value_range _ _ H1). pose proof (hex_value_range _ _ H2).
  pose proof (hex_value_range _ _ H3). pose proof (hex_value_range _ _ H4).
  pose proof (hex_value_range _ _ H5). pose proof (hex_value_range _ _ H6).
  assert (∀ a b c d e f va vb vc vd ve vf,
            hex_value a = Some va → hex_value b = Some vb →
            hex_value c = Some vc → hex_value d = Some vd →
            hex_value e = Some ve → hex_value f = Some vf →
            0 <= va <= 15 → 0 <= vb <= 15 → 0 <= vc <= 15 →
            0 <= vd <= 15 → 0 <= ve <= 15 → 0 <= vf <= 15 →
            hex2rgb (String "#" (String a (String b (String c
                      (String d (String e (String f ""))))))) =
            TileSource.returns [16 * va + vb; 16 * vc + vd; 16 * ve + vf])
    as Hlong.
  { intros a b c d e f va vb vc vd ve vf Ha Hb Hc Hd He Hf ? ? ? ? ? ?.
    unfold hex2rgb, is_hex_color, parseInt16. simpl.
    rewrite Ha, Hb, Hc, Hd, He, Hf. simpl. long_arith. }
  split; [by apply Hlong|].
  assert (hex2rgb (String "#" (String c1 (String c2 (String c3 "")))) =
          TileSource.returns [17 * v1; 17 * v2; 17 * v3]) as Hshort.
  { unfold hex2rgb, is_hex_color, parseInt16. simpl.
    rewrite H1, H2, H3. simpl. short_arith. }
  split; [done|].
  rewrite Hshort, (Hlong c1 c1 c2 c2 c3 c3 v1 v1 v2 v2 v3 v3) by done.
  repeat f_equal; lia.
Qed.

Lemma hex2rgb_reads_pairs_and_doubles_singles_witness :
  hex2rgb "#ff8000" = TileSource.returns [255; 128; 0] ∧
  hex2rgb "#ff8" = TileSource.returns [255; 255; 136] ∧
  hex2rgb "#ff8" = hex2rgb "#ffff88".
Proof.
  exact (hex2rgb_reads_pairs_and_doubles_singles "f" "f" "8" "0" "0" "0"
           15 15 8 0 0 0 eq_refl eq_refl eq_refl eq_refl eq_refl eq_refl).
Defined.

(** X23: Four and five digits pass the test as well, and are read as a
    number aligned to the right: with four digits the first component
    is always 0 and the digits pair up as the second and third; with
    five digits the first digit alone is the first component. *)
Theorem hex2rgb_four_and_five_digits
    (c1 c2 c3 c4 c5 : ascii) (v1 v2 v3 v4 v5 : Z) :
  hex_value c1 = Some v1 → hex_value c2 = Some v2 → hex_value c3 = Some v3 →
  hex_value c4 = Some v4 → hex_value c5 = Some v5 →
  hex2rgb (String "#" (String c1 (String c2 (String c3 (String c4 ""))))) =
    TileSource.returns [0; 16 * v1 + v2; 16 * v3 + v4] ∧
  hex2rgb (String "#" (String c1 (String c2 (String c3 (String c4 (String c5 "")))))) =
    TileSource.returns [v1; 16 * v2 + v3; 16 * v4 + v5].
Proof.
  intros H1 H2 H3 H4 H5.
  pose proof (hex_value_range _ _ H1). pose proof (hex_value_range _ _ H2).
  pose proof (hex_value_range _ _ H3). pose proof (hex_value_range _ _ H4).
  pose proof (hex_value_range _ _ H5).
  split; unfold hex2rgb, is_hex_color, parseInt16; simpl;
    rewrite H1, H2, H3, H4, ?H5; simpl; long_arith.
Qed.

Lemma hex2rgb_four_and_five_digits_witness :
  hex2rgb "#abcd" = TileSource.returns [0; 171; 205] ∧
  hex2rgb "#abcde" = TileSource.returns [10; 188; 222].
Proof.
  exact (hex2rgb_four_and_five_digits "a" "b" "c" "d" "e" 10 11 12 13 14
           eq_refl eq_refl eq_refl eq_refl eq_refl).
Defined.

(** ** X24: [population] *)

Lemma ToInt32_small (n : Z) : 0 <= n < 2 ^ 31 → ToInt32 n = n.
Proof.
  intros H. unfold ToInt32. rewrite Z.mod_small by lia.
  destruct (2 ^ 31 <=? n) eqn:E; [apply Z.leb_le in E; lia | done].
Qed.

Lemma ToInt32_range (n : Z) : - 2 ^ 31 <= ToInt32 n < 2 ^ 31.
Proof.
  unfold ToInt32. pose proof (Z.mod_pos_bound n (2 ^ 32) ltac:(lia)).
  destruct (2 ^ 31 <=? n mod 2 ^ 32) eqn:E;
    [apply Z.leb_le in E | apply Z.leb_gt in E]; lia.
Qed.

Lemma popcount_step (v : Z) :
  0 <= v → Z.land v 1 + popcount (Z.shiftr v 1) = popcount v.
Proof.
  by destruct v as [|[p|p|]|p].
Qed.

Lemma population_loop_S fuel bits val :
  population_loop (S fuel) bits val =
  if 0 <? val then
    population_loop fuel (bits + Z.land (ToInt32 val) 1) (Z.shiftr (ToInt32 val) 1)
  else Some bits.
Proof. done. Qed.

Lemma population_loop_small (n fuel : nat) (bits v : Z) :
  (n < fuel)%nat → (n <= 31)%nat → 0 <= v < 2 ^ Z.of_nat n →
  population_loop fuel bits v = Some (bits + popcount v).
Proof.
  revert fuel bits v. induction n as [|n IH]; intros [|fuel] bits v Hf Hn Hv;
    try lia; rewrite population_loop_S.
  - assert (v = 0) as -> by (simpl in Hv; lia). simpl. f_equal. lia.
  - destruct (0 <? v) eqn:E; [apply Z.ltb_lt in E | apply Z.ltb_ge in E].
    + assert (2 ^ Z.of_nat (S n) <= 2 ^ 31) by (apply Z.pow_le_mono_r; lia).
      rewrite ToInt32_small by lia.
      rewrite IH; [| lia | lia |].
      * f_equal. pose proof (popcount_step v). lia.
      * rewrite Z.shiftr_div_pow2 by lia.
        rewrite Nat2Z.inj_succ, Z.pow_succ_r in Hv by lia.
        change (2 ^ 1) with 2. Z.div_mod_to_equations. lia.
    + assert (v = 0) as -> by lia. simpl. f_equal. lia.
Qed.

(** X24: [population] returns for every integer, within 33 turns of its
    loop. For a number from 0 to [2^31 - 1] the result is the number of
    ones in its binary writing. Beyond that the number is first cut to
    32 bits: when the cut value is negative as a signed number the loop
    stops after one turn and the result is the lowest bit only (so
    [population(2^31)] is 0, not 1); when it is not negative the result
    counts the ones of the cut value. A number that is not positive
    gives 0. *)
Theorem population_counts_ones (val : Z) :
  population val =
    Some (if 0 <? val then
            if 0 <=? ToInt32 val then popcount (ToInt32 val)
            else Z.land (ToInt32 val) 1
          else 0) ∧
  (0 <= val < 2 ^ 31 → population val = Some (popcount val)).
Proof.
  assert (population val =
    Some (if 0 <? val then
            if 0 <=? ToInt32 val then popcount (ToInt32 val)
            else Z.land (ToInt32 val) 1
          else 0)) as Hgen.
  { unfold population. change 33%nat with (S 32). rewrite population_loop_S.
    destruct (0 <? val); [|done].
    pose proof (ToInt32_range val).
    destruct (0 <=? ToInt32 val) eqn:E;
      [apply Z.leb_le in E | apply Z.leb_gt in E].
    - rewrite (population_loop_small 30); [| lia | lia |].
      + f_equal. pose proof (popcount_step (ToInt32 val)). lia.
      + rewrite Z.shiftr_div_pow2 by lia. change (2 ^ 1) with 2.
        change (2 ^ Z.of_nat 30) with 1073741824.
        change (2 ^ 31) with 2147483648 in *.
        Z.div_mod_to_equations. lia.
    - change 32%nat with (S 31). rewrite population_loop_S.
      assert (Z.shiftr (ToInt32 val) 1 < 0) as Hneg by (apply Z.shiftr_neg; lia).
      assert ((0 <? Z.shiftr (ToInt32 val) 1) = false) as ->
        by (apply Z.ltb_ge; lia).
      done. }
  split; [done|]. intros H. rewrite Hgen.
  destruct (0 <? val) eqn:E; [apply Z.ltb_lt in E | apply Z.ltb_ge in E].
  - rewrite ToInt32_small by done.
    destruct (0 <=? val) eqn:E'; [done | apply Z.leb_gt in E'; lia].
  - by assert (val = 0) as -> by lia.
Qed.

Lemma population_counts_ones_witness :
  population 255 = Some 8.
Proof.
  refine (proj2 (population_counts_ones 255) _). vm_compute. split; congruence.
Defined.

End UtilsTheory.
